(** * dicompare-web: grouping, normalization and mapping scripts

    A shallow embedding of the Python scripts

    - [src/scripts/generate_template.py]  ([make_hashable],
      [fetch_unique_rows], [get_constant_fields]),
    - [src/scripts/mapping_output.py]     (series labels, [session_map_serializable]),
    - [src/scripts/compliance_output.py]  ([series_map]),
    - [scripts/process_example_dicoms.py] ([clean_for_json]),

    together with the properties of them that the specification states.

    Python values are an inductive type, exceptions are an explicit result
    type, dictionaries used as maps are [gmap]s, and the few pandas and json
    operations the scripts call are modelled next to the code that calls
    them. *)

From Stdlib Require Import ZArith String Ascii List Lia Permutation.
From Stdlib Require Import Floats.SpecFloat.
From stdpp Require Import base option list gmap strings pretty sorting.

Open Scope string_scope.
Open Scope nat_scope.

(** ** Exceptions as results *)

Inductive exn : Set := TypeError | ValueError | KeyError.

Inductive res (A : Type) : Type :=
| Ok (a : A)
| Raise (e : exn).
Arguments Ok {A} a.
Arguments Raise {A} e.

Definition res_bind {A B : Type} (f : A → res B) (m : res A) : res B :=
  match m with
  | Ok a => f a
  | Raise e => Raise e
  end.

#[global] Instance exn_eq_dec : EqDecision exn.
Proof. solve_decision. Defined.

#[global] Instance res_eq_dec {A : Type} `{EqDecision A} : EqDecision (res A).
Proof. solve_decision. Defined.

#[global] Instance res_mbind : MBind res := @res_bind.
#[global] Instance res_mret : MRet res := @Ok.

(** [for x in xs: ...] collecting results, stopping at the first exception. *)
Fixpoint sequence {A : Type} (ms : list (res A)) : res (list A) :=
  match ms with
  | [] => Ok []
  | m :: ms' => a ← m; as' ← sequence ms'; Ok (a :: as')
  end.

(** ** Python values

    The builtin values a metadata cell can hold.  A float is an IEEE 754
    value ([spec_float]: zeros, infinities, NaN, finite); a string has one
    [ascii] per code point; a set is the list of its elements in iteration
    order; a dict is the list of its items in insertion order, with string
    keys. *)

#[local] Unset Elimination Schemes.
Inductive pyval : Type :=
| PNone
| PBool (b : bool)
| PInt (z : Z)
| PFloat (f : spec_float)
| PStr (s : string)
| PList (l : list pyval)
| PTuple (l : list pyval)
| PSet (l : list pyval)
| PDict (items : list (string * pyval)).
#[local] Set Elimination Schemes.

Definition float_is_nan (f : spec_float) : bool :=
  match f with S754_nan => true | _ => false end.

Definition float_is_inf (f : spec_float) : bool :=
  match f with S754_infinity _ => true | _ => false end.

(** [int == float]: Python compares the exact values. *)
Definition int_eq_float (z : Z) (f : spec_float) : bool :=
  match f with
  | S754_zero _ => (z =? 0)%Z
  | S754_finite s m e =>
      let v := if s then Z.neg m else Z.pos m in
      if (0 <=? e)%Z then (z =? v * 2 ^ e)%Z else (z * 2 ^ (- e) =? v)%Z
  | _ => false
  end.

Definition Z_of_bool (b : bool) : Z := if b then 1%Z else 0%Z.

(** Python's [==] on builtin values.  [bool] is a subclass of [int];
    numbers compare by value across [bool], [int] and [float], and NaN is
    unequal to everything, itself included; sequences compare element by
    element, sets and dicts by content.  (CPython lets a container element
    that is the very same object count as equal before asking [==]; values
    here carry no object identity, so that shortcut is not represented.) *)
Fixpoint py_eq (a b : pyval) {struct a} : bool :=
  let seq_eq :=
    fix seq_eq (xs ys : list pyval) {struct xs} : bool :=
      match xs, ys with
      | [], [] => true
      | x :: xs', y :: ys' => py_eq x y && seq_eq xs' ys'
      | _, _ => false
      end in
  match a, b with
  | PNone, PNone => true
  | PBool x, PBool y => (Z_of_bool x =? Z_of_bool y)%Z
  | PBool x, PInt y => (Z_of_bool x =? y)%Z
  | PBool x, PFloat y => int_eq_float (Z_of_bool x) y
  | PInt x, PBool y => (x =? Z_of_bool y)%Z
  | PInt x, PInt y => (x =? y)%Z
  | PInt x, PFloat y => int_eq_float x y
  | PFloat x, PBool y => int_eq_float (Z_of_bool y) x
  | PFloat x, PInt y => int_eq_float y x
  | PFloat x, PFloat y => SFeqb x y
  | PStr s, PStr t => String.eqb s t
  | PList xs, PList ys => seq_eq xs ys
  | PTuple xs, PTuple ys => seq_eq xs ys
  | PSet xs, PSet ys =>
      forallb (λ x, existsb (λ y, py_eq x y) ys) xs
      && forallb (λ y, existsb (λ x, py_eq x y) xs) ys
  | PDict xs, PDict ys =>
      (length xs =? length ys)%nat
      && forallb (λ kx, existsb (λ ky, String.eqb kx.1 ky.1 && py_eq kx.2 ky.2) ys) xs
  | _, _ => false
  end.

(** ** [json.dumps(value, sort_keys=True)] *)

(** [float.__repr__] on finite floats (the shortest decimal string that reads
    back as the same float) is CPython's and is taken as a parameter. *)
Class FloatRepr := float_repr : spec_float → string.

Definition dquote : ascii := "034"%char.

Definition hex_digit (n : N) : ascii :=
  if (n <? 10)%N then ascii_of_N (48 + n) else ascii_of_N (87 + n).

(** One character of a JSON string under [ensure_ascii=True]. *)
Definition json_escape_char (c : ascii) : string :=
  let n := N_of_ascii c in
  if (n =? 34)%N then String "\" (String dquote "")
  else if (n =? 92)%N then "\\"
  else if (n =? 8)%N then "\b"
  else if (n =? 12)%N then "\f"
  else if (n =? 10)%N then "\n"
  else if (n =? 13)%N then "\r"
  else if (n =? 9)%N then "\t"
  else if ((32 <=? n) && (n <=? 126))%N then String c ""
  else "\u00" +:+ String (hex_digit (n / 16)) (String (hex_digit (n mod 16)) "").

Fixpoint json_escape (s : string) : string :=
  match s with
  | "" => ""
  | String c s' => json_escape_char c +:+ json_escape s'
  end.

Definition json_string (s : string) : string :=
  String dquote (json_escape s) +:+ String dquote "".

Definition json_float `{FloatRepr} (f : spec_float) : string :=
  match f with
  | S754_nan => "NaN"
  | S754_infinity false => "Infinity"
  | S754_infinity true => "-Infinity"
  | _ => float_repr f
  end.

(** [", ".join(parts)] *)
Fixpoint join (sep : string) (parts : list string) : string :=
  match parts with
  | [] => ""
  | [p] => p
  | p :: ps => p +:+ sep +:+ join sep ps
  end.

(** [sorted(items)] of a dict's items: ascending by key, stable. *)
Fixpoint insert_by_key {V : Type} (kv : string * V) (l : list (string * V))
  : list (string * V) :=
  match l with
  | [] => [kv]
  | kv' :: l' =>
      if String.leb kv.1 kv'.1 then kv :: l else kv' :: insert_by_key kv l'
  end.

Definition sort_keys {V : Type} (items : list (string * V)) : list (string * V) :=
  foldr insert_by_key [] items.

(** The encoder.  Lists and tuples become JSON arrays, a dict an object with
    its keys in sorted order; a set is not JSON serializable. *)
Fixpoint json_dumps `{FloatRepr} (v : pyval) : res string :=
  match v with
  | PNone => Ok "null"
  | PBool true => Ok "true"
  | PBool false => Ok "false"
  | PInt z => Ok (pretty z)
  | PFloat f => Ok (json_float f)
  | PStr s => Ok (json_string s)
  | PList l | PTuple l =>
      parts ← sequence (map json_dumps l);
      Ok ("[" +:+ join ", " parts +:+ "]")
  | PSet _ => Raise TypeError
  | PDict items =>
      parts ← sequence
        (map (λ kr : string * res string,
                s ← kr.2; Ok (json_string kr.1 +:+ ": " +:+ s))
             (sort_keys (map (λ kv : string * pyval, (kv.1, json_dumps kv.2)) items)));
      Ok ("{" +:+ join ", " parts +:+ "}")
  end.

(** ** [generate_template.py]: the value normalizer *)

(** [make_hashable(value)] *)
Fixpoint make_hashable `{FloatRepr} (value : pyval) : res pyval :=
  match value with
  | PList _ | PDict _ => s ← json_dumps value; Ok (PStr s)
  | PSet l | PTuple l => vs ← sequence (map make_hashable l); Ok (PTuple vs)
  | _ => Ok value
  end.

(** The values [json.dumps] encodes: those holding no set. *)
Fixpoint serializable (v : pyval) : bool :=
  match v with
  | PSet _ => false
  | PList l | PTuple l => forallb serializable l
  | PDict items => forallb (λ kv : string * pyval, serializable kv.2) items
  | _ => true
  end.

(** The values [make_hashable] accepts: every list or dict reached through
    sets and tuples is serializable. *)
Fixpoint normalizable (v : pyval) : bool :=
  match v with
  | PList _ | PDict _ => serializable v
  | PSet l | PTuple l => forallb normalizable l
  | _ => true
  end.

(** Two raw cells whose normalized values are [==]. *)
Definition normalized_eq `{FloatRepr} (x y : pyval) : Prop :=
  ∃ a b, make_hashable x = Ok a ∧ make_hashable y = Ok b ∧ py_eq a b = true.

(** What [make_hashable] turns a raw cell into, by kind of cell. *)
Definition normalized_form `{FloatRepr} (raw w : pyval) : Prop :=
  match raw with
  | PList _ | PDict _ => ∃ s, json_dumps raw = Ok s ∧ w = PStr s
  | PSet l | PTuple l =>
      ∃ ws, Forall2 (λ x y, make_hashable x = Ok y) l ws ∧ w = PTuple ws
  | _ => w = raw
  end.

(** ** [process_example_dicoms.py]: the JSON cleaner *)

(** [clean_for_json(obj)] on a value built from builtin objects only, where
    the branches for [np.ndarray], [np.integer] and [np.floating] do not
    apply; [clean_for_json_numpy] below is the function on values that may
    hold numpy objects.  On a scalar, [pd.isna] holds of [None] and of a
    NaN float; on a tuple or a set it is [False], and the value falls through
    to the last branch. *)
Fixpoint clean_for_json (obj : pyval) : pyval :=
  match obj with
  | PDict items => PDict (map (λ kv : string * pyval, (kv.1, clean_for_json kv.2)) items)
  | PList l => PList (map clean_for_json l)
  | PNone => PNone
  | PFloat f => if float_is_nan f || float_is_inf f then PNone else PFloat f
  | _ => obj
  end.

(** The missing numeric sentinels: [None], NaN, and the infinities. *)
Definition missing_numeric (v : pyval) : bool :=
  match v with
  | PNone => true
  | PFloat f => float_is_nan f || float_is_inf f
  | _ => false
  end.

(** ** Python strings, lists and dicts *)

(** [str.isspace] on one code point below 256. *)
Definition is_space (c : ascii) : bool :=
  let n := N_of_ascii c in
  ((9 <=? n) && (n <=? 13) || (28 <=? n) && (n <=? 32) || (n =? 133) || (n =? 160))%N.

Fixpoint lstrip (s : string) : string :=
  match s with
  | "" => ""
  | String c s' => if is_space c then lstrip s' else s
  end.

(** [s.strip()] *)
Definition strip (s : string) : string :=
  String.rev (lstrip (String.rev (lstrip s))).

Definition is_colon (c : ascii) : bool := Ascii.eqb c ":".

(** Put a character in front of the first piece. *)
Definition extend_first (c : ascii) (pieces : list string) : list string :=
  match pieces with
  | [] => [String c ""]
  | p :: ps => String c p :: ps
  end.

(** [s.split("::")]: cut at each occurrence of the separator, found from the
    left and not overlapping. *)
Fixpoint split_sep (s : string) : list string :=
  match s with
  | "" => [""]
  | String c s' =>
      match s' with
      | String c' s'' =>
          if is_colon c && is_colon c' then "" :: split_sep s''
          else extend_first c (split_sep s')
      | "" => extend_first c (split_sep s')
      end
  end.

(** ["::" in s] *)
Fixpoint has_sep (s : string) : bool :=
  match s with
  | "" => false
  | String c s' =>
      match s' with
      | String c' _ => is_colon c && is_colon c' || has_sep s'
      | "" => false
      end
  end.

(** [f"{a}::{b}"] *)
Definition join_sep (a b : string) : string := a +:+ "::" +:+ b.

(** [list.remove(x)]: drops the first occurrence, [ValueError] when there is
    none. *)
Fixpoint list_remove (x : string) (l : list string) : res (list string) :=
  match l with
  | [] => Raise ValueError
  | y :: l' =>
      if decide (y = x) then Ok l' else l'' ← list_remove x l'; Ok (y :: l'')
  end.

(** [Series.unique()] and the keys of a dict built from a sequence: the
    distinct elements, in order of first appearance. *)
Fixpoint unique {A : Type} `{EqDecision A} (l : list A) : list A :=
  match l with
  | [] => []
  | x :: l' => x :: filter (λ y, y ≠ x) (unique l')
  end.

(** A dict whose iteration order matters is the list of its items in
    insertion order; [d[k] = v] overwrites in place or appends. *)
Fixpoint dict_set {K V : Type} `{EqDecision K} (k : K) (v : V) (d : list (K * V))
  : list (K * V) :=
  match d with
  | [] => [(k, v)]
  | kv :: d' => if decide (kv.1 = k) then (k, v) :: d' else kv :: dict_set k v d'
  end.

(** [{key(x): value(x) for x in xs}] *)
Definition dict_comprehension {K V : Type} `{EqDecision K} (kvs : list (K * V))
  : list (K * V) :=
  foldl (λ d kv, dict_set kv.1 kv.2 d) [] kvs.

Fixpoint dict_lookup {K V : Type} `{EqDecision K} (k : K) (d : list (K * V)) : option V :=
  match d with
  | [] => None
  | kv :: d' => if decide (kv.1 = k) then Some kv.2 else dict_lookup k d'
  end.

(** A record of a table: field name to cell.  [row.get(field, None)]. *)
Definition dict_get (row : gmap string pyval) (field : string) : pyval :=
  default PNone (row !! field).

(** ** [generate_template.py]: the constant/variable analyzer *)

(** [all(make_hashable(row.get(field, None)) == make_hashable(first_value)
         for row in rows)]; [all] stops at the first row that differs. *)
Fixpoint all_equal `{FloatRepr} (field : string) (first_value : pyval)
    (rows : list (gmap string pyval)) : res bool :=
  match rows with
  | [] => Ok true
  | row :: rows' =>
      a ← make_hashable (dict_get row field);
      b ← make_hashable first_value;
      if py_eq a b then all_equal field first_value rows' else Ok false
  end.

(** The body of [for field in fields], threading [constant_fields] and
    [variable_fields]. *)
Fixpoint constant_loop `{FloatRepr} (rows : list (gmap string pyval)) (row0 : gmap string pyval)
    (fields : list string) (constant_fields : gmap string pyval)
    (variable_fields : list string) : res (gmap string pyval * list string) :=
  match fields with
  | [] => Ok (constant_fields, variable_fields)
  | field :: fields' =>
      let first_value := dict_get row0 field in
      is_constant ← all_equal field first_value rows;
      if is_constant : bool then
        variable_fields' ← list_remove field variable_fields;
        constant_loop rows row0 fields' (<[field := first_value]> constant_fields)
          variable_fields'
      else constant_loop rows row0 fields' constant_fields variable_fields
  end.

(** [get_constant_fields(rows, fields)] *)
Definition get_constant_fields `{FloatRepr} (rows : list (gmap string pyval))
    (fields : list string) : res (gmap string pyval * list string) :=
  match rows, fields with
  | [], _ | _, [] => Ok (∅, fields)
  | row0 :: _, _ => constant_loop rows row0 fields ∅ fields
  end.

(** ** [generate_template.py]: the row deduplicator *)

(** A pandas DataFrame: the column labels and the rows, each row holding
    one cell per column, in column order.  The labels of a table are
    distinct. *)
Record DataFrame : Type := {
  columns : list string;
  records : list (list pyval)
}.

(** Position of a column label. *)
Definition column_index (cols : list string) (c : string) : option nat :=
  fst <$> list_find (λ c', c' = c) cols.

(** Positions of several labels; a missing label is a [KeyError]. *)
Definition column_positions (cols : list string) (names : list string) : res (list nat) :=
  sequence (map (λ c, match column_index cols c with
                      | Some i => Ok i
                      | None => Raise KeyError
                      end) names).

(** The cell of a row under a label. *)
Definition cell (cols : list string) (r : list pyval) (c : string) : pyval :=
  default PNone (column_index cols c ≫= λ i, r !! i).

(** The two pandas operations whose result depends on how pandas hashes and
    orders heterogeneous objects are parameters; both receive the positions
    of the columns they look at.  [pandas_contract] is the part of their
    contract that the properties below rely on:
    [drop_duplicates(subset=...)] keeps some of the rows, in their order;
    [sort_values(by=..., ascending=True)] reorders the rows, or raises. *)
Class Pandas : Type := {
  drop_duplicates : list nat → list (list pyval) → list (list pyval);
  sort_values : list nat → list (list pyval) → res (list (list pyval))
}.

Definition pandas_contract `{Pandas} : Prop :=
  (∀ subset rows, sublist (drop_duplicates subset rows) rows)
  ∧ (∀ by_ rows out, sort_values by_ rows = Ok out → out ≡ₚ rows).

(** [series.apply(f)] on the column at position [j] of every row. *)
Definition apply_at (f : pyval → res pyval) (j : nat) (r : list pyval) : res (list pyval) :=
  match r !! j with
  | Some v => v' ← f v; Ok (<[j := v']> r)
  | None => Ok r
  end.

Definition apply_column (f : pyval → res pyval) (j : nat) (rows : list (list pyval))
  : res (list (list pyval)) :=
  sequence (map (apply_at f j) rows).

(** [for col in df.columns: df[col] = df[col].apply(make_hashable)] *)
Fixpoint normalize_columns `{FloatRepr} (cols : list string) (todo : list string)
    (rows : list (list pyval)) : res (list (list pyval)) :=
  match todo with
  | [] => Ok rows
  | col :: todo' =>
      rows' ← match column_index cols col with
              | Some j => apply_column make_hashable j rows
              | None => Raise KeyError
              end;
      normalize_columns cols todo' rows'
  end.

(** Row [r'] is row [r] with the cells of the columns from position [k]
    on normalized. *)
Definition normalized_from `{FloatRepr} (n k : nat) (r r' : list pyval) : Prop :=
  length r' = length r
  ∧ ∀ i, (i < k ∨ n ≤ i → r' !! i = r !! i)
         ∧ (k ≤ i < n → ∀ v, r !! i = Some v →
                        ∃ w, make_hashable v = Ok w ∧ r' !! i = Some w).

(** [df.to_dict(orient='records')] *)
Definition to_record (cols : list string) (r : list pyval) : gmap string pyval :=
  foldl (λ d cv, <[cv.1 := cv.2]> d) ∅ (zip cols r).

(** [fetch_unique_rows(df, acquisition, selected_fields)].  The columns are
    renamed to their stripped names before [drop_duplicates] and
    [sort_values] look the selected fields up, so a field that is not its own
    stripped name is a [KeyError] there.  [drop_duplicates] returns a table
    without rows as it is, before it looks at [subset]; [sort_values] looks
    its labels up also in a table without rows. *)
Definition fetch_unique_rows `{FloatRepr} `{Pandas} (df : DataFrame) (acquisition : string)
    (selected_fields : list string) : res (list (gmap string pyval)) :=
  if bool_decide (selected_fields = []) then Ok []
  else if existsb (λ field, bool_decide (field ∉ columns df)) selected_fields
  then Raise ValueError
  else
    protocol ← match column_index (columns df) "ProtocolName" with
               | Some i => Ok i
               | None => Raise KeyError
               end;
    let in_acquisition :=
      filter (λ r, py_eq (default PNone (r !! protocol)) (PStr acquisition) = true)
             (records df) in
    let df_selected :=
      map (λ r, map (cell (columns df) r) selected_fields) in_acquisition in
    let cols := map strip selected_fields in
    normalized ← normalize_columns cols cols df_selected;
    deduplicated ← (if bool_decide (normalized = []) then Ok normalized
                    else subset ← column_positions cols selected_fields;
                         Ok (drop_duplicates subset normalized));
    sorted ← (if existsb (λ field, bool_decide (field ∈ cols)) selected_fields
              then by_ ← column_positions cols selected_fields;
                   sort_values by_ deduplicated
              else Ok deduplicated);
    Ok (map (to_record cols) sorted).

(** ** [mapping_output.py]: series labels *)

(** What [in_session.groupby(acquisition_fields).apply(...)] returns.  Each
    group gives a Series, one number under the index of each of its rows.
    pandas puts the results of several groups one after the other, as one
    Series under the row index.  The result of a single group it stacks
    into a table of one row, with one column for each row of the group,
    labelled by the index of that row.  Without any group the result is a
    table without rows, whose columns are those of the session. *)
Inductive applied : Type :=
  | no_groups
  | stacked (numbers : list (nat * nat))
  | concatenated (numbers : list (nat * nat)).

(** The numbers in such a result, each with the index of its row. *)
Definition numbers_of (result : applied) : list (nat * nat) :=
  match result with
  | no_groups => []
  | stacked numbers | concatenated numbers => numbers
  end.

(** [str(x)] for a column [x] of the stacked table: the column is named by
    the index [i] of a row of the session and holds the one number [n].
    How pandas prints a column is a parameter, as for floats. *)
Class ColumnRepr := column_repr : nat → nat → string.

(** [.reset_index(level=0, drop=True).apply(lambda x: f"Series {x}")].  On a
    Series the function gets each number; on a table it gets each column,
    and the result holds the text made from a column under the label of
    that column.  For the table without rows the labels of the result are
    the names of the session's columns, none of which is the index of a
    row. *)
Definition series_labels `{ColumnRepr} (result : applied) : list (nat * string) :=
  match result with
  | no_groups => []
  | stacked numbers =>
      map (λ ix : nat * nat, (ix.1, "Series " +:+ column_repr ix.1 ix.2)) numbers
  | concatenated numbers =>
      map (λ ix : nat * nat, (ix.1, "Series " +:+ pretty ix.2)) numbers
  end.

Section Series.
(** The reference key of a row, that is the tuple of its reference-field
    cells, with the order in which [groupby] (whose default is
    [sort=True]) arranges the group keys; [Eq] is "same group". *)
Context {K : Type} (key_compare : K → K → comparison).

Record session_row : Type := {
  ProtocolName : option string;
  reference_key : K
}.

Fixpoint insert_key (k : K) (l : list K) : list K :=
  match l with
  | [] => [k]
  | k' :: l' =>
      match key_compare k k' with
      | Lt => k :: l
      | Eq => l
      | Gt => k' :: insert_key k l'
      end
  end.

(** The group keys of [groupby(reference_fields, dropna=False)]: the
    distinct keys, ascending. *)
Definition group_keys (keys : list K) : list K := foldr insert_key [] keys.

Fixpoint key_index (k : K) (l : list K) : nat :=
  match l with
  | [] => 0
  | k' :: l' =>
      match key_compare k k' with
      | Eq => 0
      | _ => S (key_index k l')
      end
  end.

(** [.ngroup()]: each row gets the number of its group, counted from 0 in
    the order of the group keys. *)
Definition ngroup (keys : list K) : list nat :=
  map (λ k, key_index k (group_keys keys)) keys.

(** [lambda group: group.groupby(reference_fields, dropna=False)
                        .ngroup().add(1)] on the rows of one acquisition,
    which carry their index in the session. *)
Definition series_of_group (group : list (nat * session_row)) : list (nat * nat) :=
  zip group.*1 (map S (ngroup (map (λ ir, reference_key ir.2) group))).

(** The acquisitions of a session: the distinct protocol names. *)
Definition acquisitions (session : list session_row) : list string :=
  unique (omap ProtocolName session).

(** [in_session.groupby(acquisition_fields).apply(...)]: one group per
    protocol name; a row without one belongs to no group ([dropna] is left
    at its default).  Within the result each number is under the index of
    its row, so the order of the groups plays no part. *)
Definition series_numbers (session : list session_row) : applied :=
  let indexed := imap (λ i r, (i, r)) session in
  let group a := series_of_group (filter (λ ir, ProtocolName ir.2 = Some a) indexed) in
  match acquisitions session with
  | [] => no_groups
  | [a] => stacked (group a)
  | names => concatenated (concat (map group names))
  end.

(** [in_session["Series"] = ...]: the assignment aligns on the index, and a
    row absent from the result holds NaN. *)
Definition assign_series `{ColumnRepr} (session : list session_row) : list pyval :=
  let labels := series_labels (series_numbers session) in
  imap (λ i _, match dict_lookup i labels with
               | Some label => PStr label
               | None => PFloat S754_nan
               end) session.

(** The number that [ngroup().add(1)] gives row [i] within its
    acquisition, when the row belongs to one. *)
Definition series_ordinal (session : list session_row) (i : nat) : option nat :=
  dict_lookup i (numbers_of (series_numbers session)).

(** The rows of acquisition [a], with their index, and their keys. *)
Definition group_rows (session : list session_row) (a : string)
  : list (nat * session_row) :=
  filter (λ ir, ProtocolName ir.2 = Some a) (imap (λ i r, (i, r)) session).

Definition group_row_keys (session : list session_row) (a : string) : list K :=
  map (λ ir, reference_key ir.2) (group_rows session a).

(** Numbering by first appearance, as the specification words it: a
    combination's ordinal is one more than the number of distinct
    combinations seen before its first row. *)
Fixpoint first_appearance_index (k : K) (seen : list K) : option nat :=
  match seen with
  | [] => None
  | k' :: seen' =>
      match key_compare k k' with
      | Eq => Some 0
      | _ => S <$> first_appearance_index k seen'
      end
  end.

Fixpoint first_appearance_ordinals (seen : list K) (keys : list K) : list nat :=
  match keys with
  | [] => []
  | k :: keys' =>
      match first_appearance_index k seen with
      | Some n => S n :: first_appearance_ordinals seen keys'
      | None => S (length seen) :: first_appearance_ordinals (seen ++ [k]) keys'
      end
  end.
End Series.

Arguments ProtocolName {K} _.
Arguments reference_key {K} _.

(** ** [mapping_output.py] and [compliance_output.py]: the session map *)

(** A key of the session map: (acquisition, series label). *)
Definition session_key : Type := string * string.

(** A key as the tuple that [split] gives back when it round-trips. *)
Definition as_tuple (k : session_key) : list string := [k.1; k.2].

(** The keys on which joining and splitting are inverse: the separator
    occurs neither in the acquisition followed by a colon, nor in the series
    label. *)
Definition key_ok (k : session_key) : bool :=
  negb (has_sep (k.1 +:+ ":")) && negb (has_sep k.2).

(** JSON mode: [{f"{key[0]}::{key[1]}": f"{value[0]}::{value[1]}"
                 for key, value in session_map.items()}] *)
Definition session_map_serializable (session_map : list (session_key * session_key))
  : list (string * string) :=
  dict_comprehension
    (map (λ kv, (join_sep kv.1.1 kv.1.2, join_sep kv.2.1 kv.2.2)) session_map).

(** [{tuple(k.split("::")): tuple(v.split("::"))
      for k, v in json.loads(finalized_mapping).items()}] *)
Definition series_map (finalized_mapping : list (string * string))
  : list (list string * list string) :=
  dict_comprehension (map (λ kv, (split_sep kv.1, split_sep kv.2)) finalized_mapping).

(** The value the mapping script ends with. *)
Record mapping_output : Type := {
  reference_acquisitions : list string;
  input_acquisitions : list string;
  session_map : list (string * string)
}.

(** Module-reference mode.  [acquisition_column] is [in_session['Acquisition']],
    [ref_models_keys] is [ref_models.keys()]. *)
Definition module_mapping_output (acquisition_column : list string)
    (ref_models_keys : list string) : mapping_output :=
  let ref_acquisitions := unique ref_models_keys in
  let input_acqs := unique acquisition_column in
  {| reference_acquisitions := ref_acquisitions;
     input_acquisitions := input_acqs;
     session_map := dict_comprehension (zip input_acqs ref_acquisitions) |}.

(** ** A reference implementation of the pandas operations

    Enough of pandas to run [fetch_unique_rows] on tables whose normalized
    cells are integers, strings and missing values. *)

Definition is_null (v : pyval) : bool :=
  match v with
  | PNone => true
  | PFloat f => float_is_nan f
  | _ => false
  end.

(** Duplicate detection treats two missing cells as equal. *)
Definition same_cell (a b : pyval) : bool :=
  is_null a && is_null b || py_eq a b.

Definition same_on (subset : list nat) (r1 r2 : list pyval) : bool :=
  forallb (λ j, same_cell (default PNone (r1 !! j)) (default PNone (r2 !! j))) subset.

(** [keep='first'] *)
Fixpoint keep_first (subset : list nat) (seen rows : list (list pyval))
  : list (list pyval) :=
  match rows with
  | [] => []
  | r :: rows' =>
      if existsb (same_on subset r) seen then keep_first subset seen rows'
      else r :: keep_first subset (r :: seen) rows'
  end.

(** Ascending order of cells of one kind, missing cells last. *)
Definition cell_le (a b : pyval) : bool :=
  match a, b with
  | PInt x, PInt y => (x <=? y)%Z
  | PStr s, PStr t => String.leb s t
  | _, _ => is_null b
  end.

Fixpoint row_le (by_ : list nat) (r1 r2 : list pyval) : bool :=
  match by_ with
  | [] => true
  | j :: by' =>
      let a := default PNone (r1 !! j) in
      let b := default PNone (r2 !! j) in
      if cell_le a b then (if cell_le b a then row_le by' r1 r2 else true) else false
  end.

Definition sortable_column (rows : list (list pyval)) (j : nat) : bool :=
  forallb (λ r, match default PNone (r !! j) with
                | PInt _ => true
                | v => is_null v
                end) rows
  || forallb (λ r, match default PNone (r !! j) with
                   | PStr _ => true
                   | v => is_null v
                   end) rows.

(** Cells of different kinds do not compare: [TypeError]. *)
Definition sort_rows (by_ : list nat) (rows : list (list pyval))
  : res (list (list pyval)) :=
  if forallb (sortable_column rows) by_
  then Ok (merge_sort (λ r1 r2, Is_true (row_le by_ r1 r2)) rows)
  else Raise TypeError.

(** The reference implementation of the two operations. *)
Definition reference_pandas : Pandas :=
  {| drop_duplicates subset rows := keep_first subset [] rows;
     sort_values := sort_rows |}.

(** The rendering of floats used to run examples, none of which holds a
    finite float inside a list or a dict. *)
Definition no_float_repr : FloatRepr := λ _, "".

(** A table with a list-valued column. *)
Definition example_table : DataFrame :=
  {| columns := ["ProtocolName"; "ImageType"; "EchoTime"; "InstanceNumber"];
     records :=
       [ [PStr "T1"; PList [PStr "ORIGINAL"; PStr "M"]; PInt 7; PInt 1];
         [PStr "T2"; PList [PStr "DERIVED"]; PInt 80; PInt 2];
         [PStr "T1"; PList [PStr "ORIGINAL"; PStr "M"]; PInt 5; PInt 3];
         [PStr "T1"; PList [PStr "ORIGINAL"; PStr "M"]; PInt 7; PInt 4] ] |}.

(** The rendering of columns used to run examples, none of which prints
    one: their sessions hold two acquisitions. *)
Definition no_column_repr : ColumnRepr := λ _ _, "".

(** The example of the specification: one acquisition whose rows hold the
    reference values 1, 2, 1. *)
Definition example_session : list (session_row (K := Z)) :=
  [ {| ProtocolName := Some "x"; reference_key := 1%Z |};
    {| ProtocolName := Some "x"; reference_key := 2%Z |};
    {| ProtocolName := Some "x"; reference_key := 1%Z |} ].

(** The same rows next to a row of a second acquisition. *)
Definition example_of_two : list (session_row (K := Z)) :=
  example_session ++ [ {| ProtocolName := Some "y"; reference_key := 1%Z |} ].

(** An acquisition whose larger reference value comes first, next to a
    second acquisition. *)
Definition unsorted_session : list (session_row (K := Z)) :=
  [ {| ProtocolName := Some "a"; reference_key := 2%Z |};
    {| ProtocolName := Some "a"; reference_key := 1%Z |};
    {| ProtocolName := Some "a"; reference_key := 2%Z |};
    {| ProtocolName := Some "b"; reference_key := 7%Z |} ].

(** ** More of the scripts

    The remaining functions of the scripts, modelled with the definitions
    above. *)

(** Whether a call returned. *)
Definition is_Ok {A : Type} (m : res A) : bool :=
  match m with Ok _ => true | Raise _ => false end.

(** The values Python can hash: no list, dict or set at any depth. *)
Fixpoint hashable (v : pyval) : bool :=
  match v with
  | PList _ | PDict _ | PSet _ => false
  | PTuple l => forallb hashable l
  | _ => true
  end.

(** The values that hold no NaN and no infinity where [clean_for_json]
    looks: at the top, as a list element or as a dict value, through any
    nesting of lists and dicts.  Tuples and sets are not entered. *)
Fixpoint json_clean (v : pyval) : bool :=
  match v with
  | PFloat f => negb (float_is_nan f || float_is_inf f)
  | PList l => forallb json_clean l
  | PDict items => forallb (λ kv : string * pyval, json_clean kv.2) items
  | _ => true
  end.

(** Values that may hold numpy objects: a value built from builtin objects
    only; a list, tuple, set or dict of such values; an [np.ndarray], given
    by the value its [tolist()] returns; an [np.integer]; an [np.floating],
    which is also a Python [float] when it is an [np.float64]. *)
#[local] Unset Elimination Schemes.
Inductive npval : Type :=
  | NPy (v : pyval)
  | NList (l : list npval)
  | NTuple (l : list npval)
  | NSet (l : list npval)
  | NDict (items : list (string * npval))
  | NArray (tolist : npval)
  | NInteger (z : Z)
  | NFloating (float64 : bool) (f : spec_float).
#[local] Set Elimination Schemes.

(** [process_example_dicoms.py], [clean_for_json(obj)] with all its
    branches, in their order: dict, list, [np.ndarray] (its [tolist()],
    returned as it is), [pd.isna(obj) or obj is None], [np.integer] and
    [np.floating] ([None] for NaN and the infinities, [obj.item()]
    otherwise), [float], and every other object as it is. *)
Fixpoint clean_for_json_numpy (obj : npval) : npval :=
  match obj with
  | NDict items =>
      NDict (map (λ kv : string * npval, (kv.1, clean_for_json_numpy kv.2)) items)
  | NList l => NList (map clean_for_json_numpy l)
  | NArray tolist => tolist
  | NInteger z => NPy (PInt z)
  | NFloating _ f =>
      if float_is_nan f || float_is_inf f then NPy PNone else NPy (PFloat f)
  | NPy v => NPy (clean_for_json v)
  | NTuple _ | NSet _ => obj
  end.

(** The values that hold no array where [clean_for_json] looks: at the top,
    as a list element or as a dict value, through any nesting of lists and
    dicts. *)
Fixpoint array_free (v : npval) : bool :=
  match v with
  | NArray _ => false
  | NList l => forallb array_free l
  | NDict items => forallb (λ kv : string * npval, array_free kv.2) items
  | _ => true
  end.

(** The values that, in those places, hold no NaN, no infinity, no numpy
    number and no array. *)
Fixpoint json_clean_numpy (v : npval) : bool :=
  match v with
  | NPy w => json_clean w
  | NList l => forallb json_clean_numpy l
  | NDict items => forallb (λ kv : string * npval, json_clean_numpy kv.2) items
  | NArray _ | NInteger _ | NFloating _ _ => false
  | NTuple _ | NSet _ => true
  end.

(** The values [json.dumps] encodes.  It enters lists, tuples and dicts; it
    raises [TypeError] on a set, an array, an [np.integer] and an
    [np.floating] other than [np.float64], which it encodes as the [float]
    it is. *)
Fixpoint encodable (v : npval) : bool :=
  match v with
  | NPy w => serializable w
  | NList l | NTuple l => forallb encodable l
  | NDict items => forallb (λ kv : string * npval, encodable kv.2) items
  | NSet _ | NArray _ | NInteger _ => false
  | NFloating float64 _ => float64
  end.

(** [generate_template.py], [fetch_sorted_unique_rows(df, acquisition,
    selected_fields)].  The cells stay raw; [drop_duplicates()] hashes them
    and raises [TypeError] on an unhashable one; [df.insert(0, 'Series', ...)]
    raises [ValueError] when the table already has a column of that name. *)
Definition fetch_sorted_unique_rows `{Pandas} (df : DataFrame) (acquisition : string)
    (selected_fields : list string) : res (list (gmap string pyval)) :=
  protocol ← match column_index (columns df) "ProtocolName" with
             | Some i => Ok i
             | None => Raise KeyError
             end;
  let in_acquisition :=
    filter (λ r, py_eq (default PNone (r !! protocol)) (PStr acquisition) = true)
           (records df) in
  if existsb (λ field, bool_decide (field ∉ columns df)) selected_fields
  then Raise KeyError
  else
    let selected := map (λ r, map (cell (columns df) r) selected_fields) in_acquisition in
    if negb (forallb (forallb hashable) selected) then Raise TypeError
    else
      let deduplicated :=
        drop_duplicates (seq 0 (length selected_fields)) selected in
      by_ ← column_positions selected_fields selected_fields;
      df_filtered ← sort_values by_ deduplicated;
      if 1 <? length df_filtered then
        if bool_decide ("Series" ∈ selected_fields) then Raise ValueError
        else Ok (imap (λ i r, to_record ("Series" :: selected_fields)
                                (PInt (Z.of_nat (S i)) :: r)) df_filtered)
      else Ok (map (to_record selected_fields) df_filtered).

(** [compliance_output.py], module-reference mode:
    [{k.split("::")[0]: v for k, v in json.loads(finalized_mapping).items()}].
    Subscripting an empty list would raise [IndexError]; that outcome is
    [None] here. *)
Definition acquisition_map (finalized_mapping : list (string * string))
  : option (list (string * string)) :=
  dict_comprehension
    <$> mapM (λ kv : string * string, (λ a, (a, kv.2)) <$> head (split_sep kv.1))
             finalized_mapping.

(** [process_example_dicoms.py], [process_dicom_directory]: the choice of
    [available_fields] among the columns of the session, with its fallback
    to three basic fields. *)
Definition basic_fields : list string :=
  ["ProtocolName"; "SeriesDescription"; "Manufacturer"].

Definition available_fields (session_columns : list string)
    (reference_fields : list string) : res (list string) :=
  match filter (λ f, f ∈ session_columns) reference_fields with
  | [] =>
      match filter (λ f, f ∈ session_columns) basic_fields with
      | [] => Raise ValueError
      | fields => Ok fields
      end
  | fields => Ok fields
  end.

(** [DEFAULT_DICOM_FIELDS] *)
Definition DEFAULT_DICOM_FIELDS : list string :=
  [ "SeriesDescription"; "SequenceName"; "SequenceVariant"; "ScanningSequence";
    "ImageType"; "Manufacturer"; "ManufacturerModelName"; "SoftwareVersion";
    "MRAcquisitionType"; "SliceThickness"; "PixelSpacing"; "Rows"; "Columns";
    "Slices"; "AcquisitionMatrix"; "ReconstructionDiameter";
    "RepetitionTime"; "EchoTime"; "InversionTime"; "FlipAngle";
    "EchoTrainLength"; "GradientEchoTrainLength"; "NumberOfTemporalPositions";
    "TemporalResolution"; "SliceTiming";
    "DiffusionBValue"; "DiffusionGradientDirectionSequence";
    "ParallelAcquisitionTechnique"; "ParallelReductionFactorInPlane";
    "PartialFourier"; "SliceAccelerationFactor";
    "PixelBandwidth"; "BandwidthPerPixelPhaseEncode";
    "InPlanePhaseEncodingDirection"; "PhaseEncodingDirectionPositive";
    "NumberOfPhaseEncodingSteps";
    "MagneticFieldStrength"; "ImagingFrequency"; "ImagedNucleus";
    "TransmitCoilName"; "ReceiveCoilName"; "SAR"; "NumberOfAverages"; "CoilType";
    "PercentSampling"; "PercentPhaseFieldOfView";
    "ScanOptions"; "AngioFlag";
    "TriggerTime"; "TriggerSourceOrType"; "BeatRejectionFlag"; "LowRRValue";
    "HighRRValue";
    "SpoilingRFPhaseAngle"; "PerfusionTechnique"; "SpectrallySelectedExcitation";
    "SaturationRecovery"; "SpectrallySelectedSuppression"; "TimeOfFlightContrast";
    "SteadyStatePulseSequence"; "PartialFourierDirection" ].

(** A string that does not start with white space. *)
Definition starts_clean (s : string) : bool :=
  match s with
  | "" => true
  | String c _ => negb (is_space c)
  end.

(** The order in which [sort_keys] leaves the items of a dict. *)
Abbreviation key_le := (λ a b : string * res string, String.leb a.1 b.1 = true).

(** * Properties *)

(** ** Induction on values and results of loops *)

Section pyval_induction.
Variable P : pyval → Prop.
Hypothesis HNone : P PNone.
Hypothesis HBool : ∀ b, P (PBool b).
Hypothesis HInt : ∀ z, P (PInt z).
Hypothesis HFloat : ∀ f, P (PFloat f).
Hypothesis HStr : ∀ s, P (PStr s).
Hypothesis HList : ∀ l, Forall P l → P (PList l).
Hypothesis HTuple : ∀ l, Forall P l → P (PTuple l).
Hypothesis HSet : ∀ l, Forall P l → P (PSet l).
Hypothesis HDict : ∀ items, Forall (λ kv, P kv.2) items → P (PDict items).

Fixpoint pyval_ind (v : pyval) : P v :=
  let all :=
    fix all (l : list pyval) : Forall P l :=
      match l with
      | [] => List.Forall_nil P
      | x :: l' => List.Forall_cons P x l' (pyval_ind x) (all l')
      end in
  match v with
  | PNone => HNone
  | PBool b => HBool b
  | PInt z => HInt z
  | PFloat f => HFloat f
  | PStr s => HStr s
  | PList l => HList l (all l)
  | PTuple l => HTuple l (all l)
  | PSet l => HSet l (all l)
  | PDict items =>
      HDict items
        ((fix all_items (l : list (string * pyval)) : Forall (λ kv, P kv.2) l :=
            match l with
            | [] => List.Forall_nil _
            | kv :: l' => List.Forall_cons _ kv l' (pyval_ind kv.2) (all_items l')
            end) items)
  end.
End pyval_induction.

Lemma sequence_Ok {A : Type} (ms : list (res A)) (xs : list A) :
  sequence ms = Ok xs ↔ Forall2 (λ m x, m = Ok x) ms xs.
Proof.
  revert xs. induction ms as [|m ms IH]; intros xs; simpl.
  - split.
    + intros [= <-]. constructor.
    + intros Hall. inversion Hall. reflexivity.
  - split.
    + destruct m as [a|e]; simpl; [|discriminate].
      destruct (sequence ms) as [ys|e] eqn:Hseq; simpl; [|discriminate].
      intros [= <-]. constructor; [reflexivity|]. by apply IH.
    + intros Hall. inversion Hall as [|? y ? ys Hm Hrest]; subst. simpl.
      apply IH in Hrest. rewrite Hrest. reflexivity.
Qed.

Lemma sequence_map_Ok {A B : Type} (f : A → res B) (l : list A) (ys : list B) :
  sequence (map f l) = Ok ys ↔ Forall2 (λ x y, f x = Ok y) l ys.
Proof.
  rewrite sequence_Ok. split.
  - intros Hall. apply Forall2_fmap_l in Hall. exact Hall.
  - intros Hall. apply Forall2_fmap_l. exact Hall.
Qed.

Lemma sequence_map_fixed {A : Type} (f : A → res A) (l : list A) :
  Forall (λ x, f x = Ok x) l → sequence (map f l) = Ok l.
Proof.
  intros Hall. apply sequence_map_Ok.
  induction Hall; constructor; assumption.
Qed.

Lemma forallb_Forall {A : Type} (f : A → bool) (l : list A) :
  forallb f l = true ↔ Forall (λ x, f x = true) l.
Proof.
  induction l as [|x l IH]; simpl.
  - split; [constructor|done].
  - rewrite andb_true_iff, Forall_cons, IH. done.
Qed.

Lemma Forall_pointwise_iff {A : Type} (P Q : A → Prop) (l : list A) :
  Forall (λ x, P x ↔ Q x) l → Forall P l ↔ Forall Q l.
Proof.
  induction 1 as [|x l Hx _ IH]; [by split; constructor|].
  by rewrite !Forall_cons, Hx, IH.
Qed.

(** ** The value normalizer *)

Section Normalizer.
Context `{FloatRepr}.

Lemma make_hashable_sequence (l vs : list pyval) :
  sequence (map make_hashable l) = Ok vs →
  Forall (λ v, ∀ w, make_hashable v = Ok w → make_hashable w = Ok w) l →
  sequence (map make_hashable vs) = Ok vs.
Proof.
  intros Hseq Hall. apply sequence_map_Ok in Hseq.
  apply sequence_map_fixed.
  induction Hseq as [|x y l vs Hxy Hrest IH]; [constructor|].
  inversion Hall; subst. constructor; eauto.
Qed.

Lemma make_hashable_encoded (v : pyval) :
  (∃ l, v = PList l) ∨ (∃ items, v = PDict items) →
  make_hashable v = s ← json_dumps v; Ok (PStr s).
Proof. by intros [[l ->]|[items ->]]. Qed.

Lemma make_hashable_elementwise (v : pyval) (l : list pyval) :
  v = PSet l ∨ v = PTuple l →
  make_hashable v = vs ← sequence (map make_hashable l); Ok (PTuple vs).
Proof. by intros [->| ->]. Qed.

Lemma make_hashable_fixed (v w : pyval) :
  make_hashable v = Ok w → make_hashable w = Ok w.
Proof.
  revert w. induction v as [| | | | |l IH|l IH|l IH|items IH] using pyval_ind;
    intros w Hv.
  1-5: by injection Hv as <-.
  - rewrite make_hashable_encoded in Hv by eauto.
    destruct (json_dumps (PList l)) as [s|e]; [|discriminate].
    by injection Hv as <-.
  - rewrite (make_hashable_elementwise _ l) in Hv by eauto.
    destruct (sequence (map make_hashable l)) as [vs|e] eqn:Hseq; [|discriminate].
    injection Hv as <-.
    rewrite (make_hashable_elementwise _ vs) by eauto.
    by rewrite (make_hashable_sequence l vs Hseq IH).
  - rewrite (make_hashable_elementwise _ l) in Hv by eauto.
    destruct (sequence (map make_hashable l)) as [vs|e] eqn:Hseq; [|discriminate].
    injection Hv as <-.
    rewrite (make_hashable_elementwise _ vs) by eauto.
    by rewrite (make_hashable_sequence l vs Hseq IH).
  - rewrite make_hashable_encoded in Hv by eauto.
    destruct (json_dumps (PDict items)) as [s|e]; [|discriminate].
    by injection Hv as <-.
Qed.

Lemma sequence_is_Ok {A : Type} (ms : list (res A)) :
  (∃ xs, sequence ms = Ok xs) ↔ Forall (λ m, ∃ x, m = Ok x) ms.
Proof.
  induction ms as [|m ms IH]; simpl.
  - split; [constructor|eauto].
  - rewrite Forall_cons, <- IH. split.
    + intros [xs Hxs]. destruct m as [a|e]; [|discriminate].
      destruct (sequence ms) as [ys|e]; [|discriminate]. eauto.
    + intros [[a ->] [ys ->]]. simpl. eauto.
Qed.

Lemma insert_by_key_Permutation {V : Type} (kv : string * V) (l : list (string * V)) :
  insert_by_key kv l ≡ₚ kv :: l.
Proof.
  induction l as [|kv' l IH]; simpl; [done|].
  destruct (String.leb kv.1 kv'.1); [done|].
  rewrite IH. apply Permutation_swap.
Qed.

Lemma sort_keys_Permutation {V : Type} (items : list (string * V)) :
  sort_keys items ≡ₚ items.
Proof.
  induction items as [|kv items IH]; simpl; [done|].
  unfold sort_keys in *. simpl. by rewrite insert_by_key_Permutation, IH.
Qed.

Lemma json_dumps_array (v : pyval) (l : list pyval) :
  v = PList l ∨ v = PTuple l →
  json_dumps v = parts ← sequence (map json_dumps l);
                 Ok ("[" +:+ join ", " parts +:+ "]").
Proof. by intros [->| ->]. Qed.

Lemma json_dumps_object (items : list (string * pyval)) :
  json_dumps (PDict items) =
    parts ← sequence
      (map (λ kr : string * res string,
              s ← kr.2; Ok (json_string kr.1 +:+ ": " +:+ s))
           (sort_keys (map (λ kv : string * pyval, (kv.1, json_dumps kv.2)) items)));
    Ok ("{" +:+ join ", " parts +:+ "}").
Proof. reflexivity. Qed.

Lemma bind_is_Ok {A B : Type} (m : res A) (f : A → B) :
  (∃ y, (x ← m; Ok (f x)) = Ok y) ↔ ∃ x, m = Ok x.
Proof.
  destruct m as [a|e]; simpl; split; intros [? ?]; eauto; discriminate.
Qed.

(** [json.dumps] returns exactly on the values that hold no set. *)
Lemma json_dumps_returns (v : pyval) :
  (∃ s, json_dumps v = Ok s) ↔ serializable v = true.
Proof.
  induction v as [| | | | |l IH|l IH|l IH|items IH] using pyval_ind.
  1,3,4,5: by (simpl; split; eauto).
  - destruct b; simpl; split; eauto.
  - rewrite (json_dumps_array _ l) by eauto. rewrite bind_is_Ok, sequence_is_Ok.
    simpl. rewrite forallb_Forall, Forall_fmap.
    apply Forall_pointwise_iff. by apply Forall_impl with (1 := IH).
  - rewrite (json_dumps_array _ l) by eauto. rewrite bind_is_Ok, sequence_is_Ok.
    simpl. rewrite forallb_Forall, Forall_fmap.
    apply Forall_pointwise_iff. by apply Forall_impl with (1 := IH).
  - simpl. split; [intros [? ?]; discriminate|discriminate].
  - rewrite json_dumps_object, bind_is_Ok, sequence_is_Ok.
    simpl. rewrite forallb_Forall, Forall_fmap.
    rewrite sort_keys_Permutation, Forall_fmap.
    apply Forall_pointwise_iff.
    apply Forall_impl with (1 := IH). intros [k v] Hv. simpl in *.
    rewrite <- Hv. apply (bind_is_Ok (json_dumps v)).
Qed.

(** [make_hashable] returns exactly on the normalizable values. *)
Lemma make_hashable_returns (v : pyval) :
  (∃ w, make_hashable v = Ok w) ↔ normalizable v = true.
Proof.
  induction v as [| | | | |l IH|l IH|l IH|items IH] using pyval_ind.
  1-5: by (simpl; split; eauto).
  - rewrite make_hashable_encoded by eauto.
    rewrite (bind_is_Ok (json_dumps (PList l)) PStr). apply json_dumps_returns.
  - rewrite (make_hashable_elementwise _ l) by eauto.
    rewrite (bind_is_Ok _ PTuple), sequence_is_Ok.
    simpl. rewrite forallb_Forall, Forall_fmap.
    apply Forall_pointwise_iff. by apply Forall_impl with (1 := IH).
  - rewrite (make_hashable_elementwise _ l) by eauto.
    rewrite (bind_is_Ok _ PTuple), sequence_is_Ok.
    simpl. rewrite forallb_Forall, Forall_fmap.
    apply Forall_pointwise_iff. by apply Forall_impl with (1 := IH).
  - rewrite make_hashable_encoded by eauto.
    rewrite (bind_is_Ok (json_dumps (PDict items)) PStr). apply json_dumps_returns.
Qed.
End Normalizer.

(** C9. Normalization is idempotent: on every value it accepts,
    [make_hashable] returns, applying it to its own output returns that
    output unchanged, and so normalizing twice equals normalizing once. *)
Theorem make_hashable_idempotent `{FloatRepr} (v : pyval) :
  normalizable v = true →
  ∃ w, make_hashable v = Ok w
       ∧ make_hashable w = Ok w
       ∧ (make_hashable v ≫= make_hashable) = make_hashable v.
Proof.
  intros Hv. apply make_hashable_returns in Hv as [w Hw].
  exists w. pose proof (make_hashable_fixed v w Hw) as Hfix.
  split; [done|]. split; [done|]. rewrite Hw. exact Hfix.
Qed.

Lemma make_hashable_idempotent_witness :
  ∃ w, make_hashable (H := no_float_repr)
         (PTuple [PList [PInt 1; PStr "a"]; PSet [PInt 3]; PFloat S754_nan]) = Ok w
       ∧ make_hashable (H := no_float_repr) w = Ok w
       ∧ (make_hashable (H := no_float_repr)
            (PTuple [PList [PInt 1; PStr "a"]; PSet [PInt 3]; PFloat S754_nan])
          ≫= make_hashable (H := no_float_repr))
         = make_hashable (H := no_float_repr)
             (PTuple [PList [PInt 1; PStr "a"]; PSet [PInt 3]; PFloat S754_nan]).
Proof.
  apply (make_hashable_idempotent (H := no_float_repr)
           (PTuple [PList [PInt 1; PStr "a"]; PSet [PInt 3]; PFloat S754_nan])).
  reflexivity.
Defined.

(** C2, as the code has it. For every missing numeric sentinel ([None],
    NaN, an infinity) the value normalizer [make_hashable] does not raise
    and returns the value itself; it is the JSON cleaner [clean_for_json]
    that does not raise and returns the one null marker [None], so that
    any two cleaned sentinels are equal. *)
Theorem missing_sentinels_cleaned `{FloatRepr} (v : pyval) :
  missing_numeric v = true →
  make_hashable v = Ok v
  ∧ clean_for_json v = PNone
  ∧ ∀ v', missing_numeric v' = true →
          py_eq (clean_for_json v) (clean_for_json v') = true.
Proof.
  assert (Hclean : ∀ u, missing_numeric u = true → clean_for_json u = PNone).
  { intros [| | |f| | | | |] Hu; try discriminate; [done|].
    simpl in *. by rewrite Hu. }
  intros Hv. split; [|split].
  - by destruct v.
  - by apply Hclean.
  - intros v' Hv'. by rewrite (Hclean v Hv), (Hclean v' Hv').
Qed.

Lemma missing_sentinels_cleaned_witness :
  make_hashable (H := no_float_repr) (PFloat (S754_infinity true))
    = Ok (PFloat (S754_infinity true))
  ∧ clean_for_json (PFloat (S754_infinity true)) = PNone
  ∧ ∀ v', missing_numeric v' = true →
          py_eq (clean_for_json (PFloat (S754_infinity true))) (clean_for_json v') = true.
Proof.
  apply (missing_sentinels_cleaned (H := no_float_repr) (PFloat (S754_infinity true))).
  reflexivity.
Defined.

(** C2, as stated, fails on the normalizer: NaN is a missing numeric
    sentinel, [make_hashable] returns it as it is and not the null marker,
    and two normalized NaNs are not [==]. *)
Lemma make_hashable_nan_counterexample :
  missing_numeric (PFloat S754_nan) = true
  ∧ make_hashable (H := no_float_repr) (PFloat S754_nan) = Ok (PFloat S754_nan)
  ∧ make_hashable (H := no_float_repr) (PFloat S754_nan) ≠ Ok PNone
  ∧ (a ← make_hashable (H := no_float_repr) (PFloat S754_nan);
     b ← make_hashable (H := no_float_repr) (PFloat S754_nan);
     Ok (py_eq a b)) = Ok false.
Proof. repeat split. discriminate. Qed.

(** C8. On empty input, no rows or no fields, the analyzer does not raise
    and returns an empty constant map with the field list unchanged as the
    variable list. *)
Theorem get_constant_fields_empty `{FloatRepr} (rows : list (gmap string pyval))
    (fields : list string) :
  rows = [] ∨ fields = [] →
  get_constant_fields rows fields = Ok (∅, fields).
Proof.
  intros [-> | ->]; [done|]. by destruct rows.
Qed.

Lemma get_constant_fields_empty_witness :
  get_constant_fields (H := no_float_repr) [] ["EchoTime"; "FlipAngle"]
    = Ok (∅, ["EchoTime"; "FlipAngle"])
  ∧ get_constant_fields (H := no_float_repr) [{[ "EchoTime" := PInt 5 ]}] []
    = Ok (∅, []).
Proof.
  split.
  - apply (get_constant_fields_empty (H := no_float_repr) [] ["EchoTime"; "FlipAngle"]).
    by left.
  - apply (get_constant_fields_empty (H := no_float_repr) [{[ "EchoTime" := PInt 5 ]}] []).
    by right.
Defined.

(** ** The constant/variable analyzer *)

Abbreviation occurrences x l := (count_occ string_dec l x).

Lemma occurrences_pos (x : string) (l : list string) : x ∈ l ↔ 0 < occurrences x l.
Proof. rewrite list_elem_of_In. apply count_occ_In. Qed.

Lemma occurrences_zero (x : string) (l : list string) : x ∉ l ↔ occurrences x l = 0.
Proof. rewrite occurrences_pos. lia. Qed.

Lemma list_remove_occurrences (x : string) (l l' : list string) :
  list_remove x l = Ok l' →
  occurrences x l = S (occurrences x l')
  ∧ ∀ y, y ≠ x → occurrences y l' = occurrences y l.
Proof.
  revert l'. induction l as [|z l IH]; intros l' Hrem; simpl in Hrem; [discriminate|].
  destruct (decide (z = x)) as [->|Hzx].
  - injection Hrem as <-. split.
    + by rewrite count_occ_cons_eq.
    + intros y Hy. by rewrite count_occ_cons_neq.
  - destruct (list_remove x l) as [l''|e]; [|discriminate].
    injection Hrem as <-. destruct (IH l'' eq_refl) as [IH1 IH2]. split.
    + by rewrite !count_occ_cons_neq.
    + intros y Hy. destruct (decide (z = y)) as [->|Hzy].
      * rewrite !count_occ_cons_eq by done. by rewrite IH2.
      * rewrite !count_occ_cons_neq by done. by apply IH2.
Qed.

Lemma list_remove_returns (x : string) (l : list string) :
  x ∈ l → ∃ l', list_remove x l = Ok l'.
Proof.
  induction l as [|z l IH]; intros Hin; [by apply elem_of_nil in Hin|].
  simpl. destruct (decide (z = x)) as [->|Hzx]; [eauto|].
  apply elem_of_cons in Hin as [->|Hin]; [done|].
  destruct (IH Hin) as [l' ->]. simpl. eauto.
Qed.

(** Goals that compare [if decide (x ∈ l)] with [if decide (x ∈ y :: l)]. *)
Ltac by_membership :=
  repeat case_decide; try done; exfalso;
  match goal with
  | Hn : ?x ∉ ?y :: ?l |- _ => apply Hn, elem_of_cons; by eauto
  | Hi : ?x ∈ ?y :: ?l |- _ => apply elem_of_cons in Hi as [?|?]; by subst
  end.

Section Analyzer.
Context `{FloatRepr}.
Variable rows : list (gmap string pyval).
Variable row0 : gmap string pyval.

(** The verdict of the loop body on one field. *)
Abbreviation verdict f := (all_equal f (dict_get row0 f) rows).

Lemma all_equal_true (field : string) (first_value : pyval)
    (rs : list (gmap string pyval)) :
  all_equal field first_value rs = Ok true
  ↔ Forall (λ row, normalized_eq (dict_get row field) first_value) rs.
Proof.
  induction rs as [|row rs IH]; simpl.
  - split; [constructor|done].
  - rewrite Forall_cons, <- IH. unfold normalized_eq. split.
    + destruct (make_hashable (dict_get row field)) as [a|e]; [|discriminate].
      destruct (make_hashable first_value) as [b|e]; [|discriminate]. simpl.
      destruct (py_eq a b) eqn:Hab; [|discriminate]. eauto 10.
    + intros [(a & b & -> & -> & Hab) Hrest]. simpl. by rewrite Hab.
Qed.

Lemma all_equal_returns (field : string) (first_value : pyval)
    (rs : list (gmap string pyval)) :
  normalizable first_value = true →
  Forall (λ row, normalizable (dict_get row field) = true) rs →
  ∃ b, all_equal field first_value rs = Ok b.
Proof.
  intros Hfirst Hall. apply make_hashable_returns in Hfirst as [b Hb].
  induction Hall as [|row rs Hrow _ IH]; simpl; [eauto|].
  apply make_hashable_returns in Hrow as [a ->]. rewrite Hb. simpl.
  destruct (py_eq a b); eauto.
Qed.

(** What the loop has done once it returns: the fields it judged constant
    have gained their entry and lost one occurrence per visit. *)
Lemma constant_loop_spec (todo : list string) (cf : gmap string pyval)
    (vf : list string) (cf' : gmap string pyval) (vf' : list string) :
  constant_loop rows row0 todo cf vf = Ok (cf', vf') →
  ∀ f,
    (f ∈ todo → ∃ b, verdict f = Ok b)
    ∧ (verdict f = Ok true →
       occurrences f vf' + occurrences f todo = occurrences f vf
       ∧ cf' !! f = if decide (f ∈ todo) then Some (dict_get row0 f) else cf !! f)
    ∧ (verdict f ≠ Ok true →
       occurrences f vf' = occurrences f vf ∧ cf' !! f = cf !! f).
Proof.
  revert cf vf. induction todo as [|g todo IH]; intros cf vf Hloop f; simpl in Hloop.
  - injection Hloop as <- <-. split; [by intros ?%elem_of_nil|].
    split; intros _; simpl; split; try done; lia.
  - destruct (verdict g) as [[|]|e] eqn:Hg; simpl in Hloop; [| |discriminate].
    + destruct (list_remove g vf) as [vf1|e] eqn:Hrem; simpl in Hloop; [|discriminate].
      apply list_remove_occurrences in Hrem as [Hg1 Hother].
      destruct (IH _ _ Hloop f) as (IHa & IHb & IHc). split; [|split].
      * intros [->|Hin]%elem_of_cons; eauto.
      * intros Hf. destruct (IHb Hf) as [Hocc Hcf]. split.
        -- destruct (decide (g = f)) as [->|Hgf].
           ++ rewrite count_occ_cons_eq by done. lia.
           ++ rewrite count_occ_cons_neq by done. rewrite <- (Hother f) by done. lia.
        -- rewrite Hcf. destruct (decide (g = f)) as [->|Hgf].
           ++ rewrite lookup_insert_eq.
              by_membership.
           ++ rewrite lookup_insert_ne by done.
              by_membership.
      * intros Hf. destruct (IHc Hf) as [Hocc Hcf]. split.
        -- rewrite Hocc. apply Hother. intros ->. by rewrite Hg in Hf.
        -- rewrite Hcf. apply lookup_insert_ne. intros ->. by rewrite Hg in Hf.
    + destruct (IH _ _ Hloop f) as (IHa & IHb & IHc). split; [|split].
      * intros [->|Hin]%elem_of_cons; eauto.
      * intros Hf. destruct (IHb Hf) as [Hocc Hcf].
        assert (Hgf : g ≠ f) by (intros ->; rewrite Hg in Hf; discriminate).
        split.
        -- by rewrite count_occ_cons_neq.
        -- rewrite Hcf. by_membership.
      * done.
Qed.

(** The loop returns when every verdict does: [list.remove] never fails,
    because a field judged constant is still in the variable list as often
    as it is still to be visited. *)
Lemma constant_loop_returns (todo : list string) (cf : gmap string pyval)
    (vf : list string) :
  (∀ f, f ∈ todo → ∃ b, verdict f = Ok b) →
  (∀ f, verdict f = Ok true → (occurrences f todo ≤ occurrences f vf)%nat) →
  ∃ out, constant_loop rows row0 todo cf vf = Ok out.
Proof.
  revert cf vf. induction todo as [|g todo IH]; intros cf vf Hverdict Hocc; simpl; [eauto|].
  destruct (Hverdict g) as [b Hg]; [by left|]. rewrite Hg. simpl.
  assert (Hrest : ∀ f, f ∈ todo → ∃ b, verdict f = Ok b).
  { intros f Hf. apply Hverdict. by right. }
  destruct b.
  - destruct (list_remove_returns g vf) as [vf1 Hrem].
    { apply occurrences_pos. specialize (Hocc g Hg).
      rewrite count_occ_cons_eq in Hocc by done. lia. }
    rewrite Hrem. simpl. apply IH; [done|].
    apply list_remove_occurrences in Hrem as [Hg1 Hother].
    intros f Hf. specialize (Hocc f Hf). destruct (decide (g = f)) as [->|Hgf].
    + rewrite count_occ_cons_eq in Hocc by done. lia.
    + rewrite count_occ_cons_neq in Hocc by done. rewrite Hother by done. lia.
  - apply IH; [done|]. intros f Hf. specialize (Hocc f Hf).
    rewrite count_occ_cons_neq in Hocc; [done|]. intros ->. rewrite Hg in Hf. discriminate.
Qed.
End Analyzer.

Section AnalyzerResult.
Context `{FloatRepr}.

(** The analyzer's result on a group with a first row. *)
Lemma get_constant_fields_spec (row0 : gmap string pyval) (rest : list (gmap string pyval))
    (fields : list string) (cf : gmap string pyval) (vf : list string) :
  get_constant_fields (row0 :: rest) fields = Ok (cf, vf) →
  ∀ f,
    (all_equal f (dict_get row0 f) (row0 :: rest) = Ok true ∧ f ∈ fields →
     cf !! f = Some (dict_get row0 f) ∧ f ∉ vf)
    ∧ (¬ (all_equal f (dict_get row0 f) (row0 :: rest) = Ok true ∧ f ∈ fields) →
       cf !! f = None ∧ (f ∈ vf ↔ f ∈ fields)).
Proof.
  intros Hget f. destruct fields as [|g fields].
  { injection Hget as <- <-. split; [by intros [_ ?%elem_of_nil]|done]. }
  change (constant_loop (row0 :: rest) row0 (g :: fields) ∅ (g :: fields) = Ok (cf, vf))
    in Hget.
  destruct (constant_loop_spec _ _ _ _ _ _ _ Hget f) as (_ & Hconst & Hvar).
  split.
  - intros [Hf Hin]. destruct (Hconst Hf) as [Hocc Hcf]. split.
    + by rewrite Hcf, decide_True.
    + apply occurrences_zero. lia.
  - intros Hnot.
    destruct (decide (all_equal f (dict_get row0 f) (row0 :: rest) = Ok true))
      as [Hf|Hf].
    + destruct (Hconst Hf) as [Hocc Hcf].
      assert (Hnin : f ∉ g :: fields) by tauto. split.
      * by rewrite Hcf, decide_False.
      * apply occurrences_zero in Hnin. rewrite !occurrences_pos. lia.
    + destruct (Hvar Hf) as [Hocc Hcf]. split; [done|].
      by rewrite !occurrences_pos, Hocc.
Qed.

(** The analyzer returns whenever the cells it reads are normalizable. *)
Lemma get_constant_fields_returns (rows : list (gmap string pyval)) (fields : list string) :
  (∀ row f, row ∈ rows → f ∈ fields → normalizable (dict_get row f) = true) →
  ∃ cf vf, get_constant_fields rows fields = Ok (cf, vf).
Proof.
  intros Hcells. destruct rows as [|row0 rest]; [by exists ∅, fields|].
  destruct fields as [|g fields]; [by exists ∅, []|].
  destruct (constant_loop_returns (row0 :: rest) row0 (g :: fields) ∅ (g :: fields))
    as [[cf vf] Hout]; [|done|by exists cf, vf].
  intros f Hf. apply all_equal_returns.
  - apply Hcells; [by left|done].
  - apply Forall_forall. intros row Hrow. by apply Hcells.
Qed.
End AnalyzerResult.



(** C5. Whatever the rows and the fields, the analyzer returns whenever
    the cells are normalizable, and in its result the keys of the constant
    map and the variable list are disjoint and together make up the field
    set. *)
Theorem constant_variable_partition `{FloatRepr} (rows : list (gmap string pyval))
    (fields : list string) :
  ((∀ row f, row ∈ rows → f ∈ fields → normalizable (dict_get row f) = true) →
   ∃ cf vf, get_constant_fields rows fields = Ok (cf, vf))
  ∧ ∀ cf vf, get_constant_fields rows fields = Ok (cf, vf) →
      dom cf ∪ list_to_set vf = (list_to_set fields : gset string)
      ∧ dom cf ## (list_to_set vf : gset string).
Proof.
  split; [apply get_constant_fields_returns|].
  intros cf vf Hget.
  assert (Hkeys : ∀ f, (f ∈ dom cf ∨ f ∈ vf ↔ f ∈ fields) ∧ ¬ (f ∈ dom cf ∧ f ∈ vf)).
  { intros f. rewrite elem_of_dom. destruct rows as [|row0 rest].
    - injection Hget as <- <-. rewrite lookup_empty.
      split; [|by intros [[? ?] _]]. split; [by intros [[? ?]|?]|by right].
    - destruct (get_constant_fields_spec _ _ _ _ _ Hget f) as [Hconst Hvar].
      destruct (decide (all_equal f (dict_get row0 f) (row0 :: rest) = Ok true
                        ∧ f ∈ fields)) as [Hf|Hf].
      + destruct (Hconst Hf) as [-> Hvf]. destruct Hf as [_ Hin].
        split; [|tauto]. split; [done|]. intros _. left. by eexists.
      + destruct (Hvar Hf) as [-> Hvf].
        split; [|by intros [[? ?] _]]. split; [|tauto].
        intros [[? ?]|?]; [done|tauto]. }
  split.
  - apply set_eq. intros f. rewrite elem_of_union, !elem_of_list_to_set.
    apply Hkeys.
  - apply elem_of_disjoint. intros f Hcf Hvf. rewrite elem_of_list_to_set in Hvf.
    by apply (proj2 (Hkeys f)).
Qed.

Lemma constant_variable_partition_witness :
  ∃ cf vf,
    get_constant_fields (H := no_float_repr)
      [ {[ "TR" := PInt 8; "TE" := PInt 5 ]}; {[ "TR" := PInt 8; "TE" := PInt 10 ]} ]
      ["TR"; "TE"; "TR"] = Ok (cf, vf)
    ∧ dom cf ∪ list_to_set vf = (list_to_set ["TR"; "TE"; "TR"] : gset string)
    ∧ dom cf ## (list_to_set vf : gset string).
Proof.
  destruct (constant_variable_partition (H := no_float_repr)
              [ {[ "TR" := PInt 8; "TE" := PInt 5 ]}; {[ "TR" := PInt 8; "TE" := PInt 10 ]} ]
              ["TR"; "TE"; "TR"]) as [Hreturns Hpartition].
  destruct Hreturns as (cf & vf & Hget).
  - intros row f Hrow Hf.
    repeat (apply elem_of_cons in Hrow as [->|Hrow]);
      [| |by apply elem_of_nil in Hrow];
      repeat (apply elem_of_cons in Hf as [->|Hf]);
      try (by apply elem_of_nil in Hf); reflexivity.
  - exists cf, vf. split; [exact Hget|]. by apply Hpartition.
Defined.

(** ** The row deduplicator *)

Lemma column_index_NoDup (cols : list string) (c : string) (j : nat) :
  NoDup cols → cols !! j = Some c → column_index cols c = Some j.
Proof.
  intros Hnd Hj. unfold column_index.
  destruct (list_find _ cols) as [[i x]|] eqn:Hfind; simpl.
  - apply list_find_Some in Hfind as (Hi & -> & _).
    f_equal. by apply (NoDup_lookup cols i j c).
  - exfalso. apply list_find_None in Hfind.
    rewrite Forall_forall in Hfind. apply (Hfind c); [|done].
    by apply list_elem_of_lookup_2 in Hj.
Qed.

Lemma to_record_other (cvs : list (string * pyval)) (d : gmap string pyval) (c : string) :
  c ∉ cvs.*1 → foldl (λ d cv, <[cv.1 := cv.2]> d) d cvs !! c = d !! c.
Proof.
  revert d. induction cvs as [|[c' w'] cvs IH]; intros d Hc; simpl; [done|].
  rewrite fmap_cons, not_elem_of_cons in Hc. destruct Hc as [Hne Hc].
  rewrite IH by done. by apply lookup_insert_ne.
Qed.

Lemma to_record_lookup (cols : list string) (r : list pyval) (j : nat)
    (c : string) (w : pyval) :
  NoDup cols → cols !! j = Some c → r !! j = Some w →
  to_record cols r !! c = Some w.
Proof.
  unfold to_record. generalize (∅ : gmap string pyval).
  revert r j. induction cols as [|c' cols IH]; intros r j d Hnd Hc Hw; [done|].
  destruct r as [|w' r]; [done|]. apply NoDup_cons in Hnd as [Hc' Hnd].
  destruct j as [|j]; simpl in *.
  - injection Hc as ->. injection Hw as ->.
    rewrite to_record_other; [apply lookup_insert_eq|].
    intros Hin. apply Hc'. apply list_elem_of_fmap in Hin as ([c0 w0] & -> & Hin).
    apply elem_of_zip_l in Hin. exact Hin.
  - by apply (IH r j).
Qed.

Section Deduplicator.
Context `{FloatRepr}.

Lemma apply_at_spec (j : nat) (r r' : list pyval) :
  apply_at make_hashable j r = Ok r' →
  length r' = length r
  ∧ (∀ i, i ≠ j → r' !! i = r !! i)
  ∧ ∀ v, r !! j = Some v → ∃ w, make_hashable v = Ok w ∧ r' !! j = Some w.
Proof.
  unfold apply_at. destruct (r !! j) as [v|] eqn:Hj.
  - destruct (make_hashable v) as [w|e] eqn:Hw; simpl; [|discriminate].
    intros [= <-]. split; [by rewrite length_insert|]. split.
    + intros i Hi. by apply list_lookup_insert_ne.
    + intros ? [= <-]. exists w. split; [done|].
      apply list_lookup_insert_eq. by apply lookup_lt_Some in Hj.
  - intros [= <-]. split; [done|]. split; [done|]. discriminate.
Qed.

Lemma normalize_columns_spec (cols done todo : list string)
    (rows rows' : list (list pyval)) :
  NoDup cols → cols = (done ++ todo)%list →
  normalize_columns cols todo rows = Ok rows' →
  Forall2 (normalized_from (length cols) (length done)) rows rows'.
Proof.
  intros Hnd. revert done rows.
  induction todo as [|c todo IH]; intros done rows Hcols Hnorm; simpl in Hnorm.
  - injection Hnorm as <-. apply Forall_Forall2_diag, Forall_forall.
    intros r _. split; [done|]. intros i. split; [done|].
    rewrite Hcols, length_app. simpl. lia.
  - assert (Hc : column_index cols c = Some (length done)).
    { apply column_index_NoDup; [done|]. rewrite Hcols.
      by rewrite lookup_app_r, Nat.sub_diag. }
    rewrite Hc in Hnorm.
    destruct (apply_column make_hashable (length done) rows) as [rows1|e] eqn:Hcol;
      simpl in Hnorm; [|discriminate].
    specialize (IH (done ++ [c])%list rows1).
    rewrite <- app_assoc in IH. specialize (IH Hcols Hnorm).
    rewrite length_app in IH. simpl in IH.
    apply sequence_map_Ok in Hcol.
    assert (Hlen : length done < length cols).
    { rewrite Hcols, length_app. simpl. lia. }
    clear Hnorm Hc. revert rows' IH.
    induction Hcol as [|r r1 rows rows1 Hr _ IHrows]; intros rows' Hrest.
    + inversion Hrest. constructor.
    + inversion Hrest as [|? r' ? rows'' Hr' Hrest']; subst.
      constructor; [|by apply IHrows].
      apply apply_at_spec in Hr as (Hlen1 & Hsame & Hcell).
      destruct Hr' as [Hlen' Hr']. split; [congruence|].
      intros i. destruct (Hr' i) as [Hkeep Hnew]. split.
      * intros Hi. rewrite Hkeep by lia. apply Hsame. lia.
      * intros Hi v Hv. destruct (decide (i = length done)) as [->|Hne].
        -- destruct (Hcell v Hv) as (w & Hw & Hw'). exists w. split; [done|].
           rewrite Hkeep by lia. exact Hw'.
        -- apply Hnew; [lia|]. rewrite Hsame by done. exact Hv.
Qed.
End Deduplicator.

Lemma make_hashable_form `{FloatRepr} (raw w : pyval) :
  make_hashable raw = Ok w → normalized_form raw w.
Proof.
  destruct raw as [| | | | |l|l|l|items]; intros Hw; unfold normalized_form.
  1-5: by injection Hw as <-.
  - rewrite make_hashable_encoded in Hw by eauto.
    destruct (json_dumps (PList l)) as [s|e]; [|discriminate].
    injection Hw as <-. by exists s.
  - rewrite (make_hashable_elementwise _ l) in Hw by eauto.
    destruct (sequence (map make_hashable l)) as [ws|e] eqn:Hseq; [|discriminate].
    injection Hw as <-. exists ws. split; [|done]. by apply sequence_map_Ok.
  - rewrite (make_hashable_elementwise _ l) in Hw by eauto.
    destruct (sequence (map make_hashable l)) as [ws|e] eqn:Hseq; [|discriminate].
    injection Hw as <-. exists ws. split; [|done]. by apply sequence_map_Ok.
  - rewrite make_hashable_encoded in Hw by eauto.
    destruct (json_dumps (PDict items)) as [s|e]; [|discriminate].
    injection Hw as <-. by exists s.
Qed.

Lemma keep_first_sublist (subset : list nat) (seen rows : list (list pyval)) :
  sublist (keep_first subset seen rows) rows.
Proof.
  revert seen. induction rows as [|r rows IH]; intros seen; simpl; [constructor|].
  destruct (existsb (same_on subset r) seen).
  - apply sublist_cons, IH.
  - apply sublist_skip, IH.
Qed.

Lemma sort_rows_Permutation (by_ : list nat) (rows out : list (list pyval)) :
  sort_rows by_ rows = Ok out → out ≡ₚ rows.
Proof.
  unfold sort_rows. destruct (forallb _ by_); [|discriminate].
  intros [= <-]. apply merge_sort_Permutation.
Qed.

(** C6. An empty field subset gives an empty result and no error; a
    non-empty field subset none of whose fields is a column of the table is
    rejected with [ValueError]. *)
Theorem fetch_unique_rows_field_subset `{FloatRepr} `{Pandas} (df : DataFrame)
    (acquisition : string) (selected_fields : list string) :
  (selected_fields = [] → fetch_unique_rows df acquisition selected_fields = Ok [])
  ∧ (selected_fields ≠ [] →
     (∀ field, field ∈ selected_fields → field ∉ columns df) →
     fetch_unique_rows df acquisition selected_fields = Raise ValueError).
Proof.
  split.
  - by intros ->.
  - intros Hne Hnone. unfold fetch_unique_rows.
    rewrite bool_decide_eq_false_2 by done.
    destruct selected_fields as [|field fields]; [done|].
    assert (Hfield : field ∉ columns df) by (apply Hnone; by left).
    simpl. by rewrite (bool_decide_eq_true_2 _ Hfield).
Qed.

Lemma fetch_unique_rows_field_subset_witness :
  fetch_unique_rows (H := no_float_repr) (H0 := reference_pandas)
    {| columns := ["ProtocolName"; "EchoTime"];
       records := [[PStr "T1"; PInt 5]; [PStr "T1"; PInt 10]] |} "T1" [] = Ok []
  ∧ fetch_unique_rows (H := no_float_repr) (H0 := reference_pandas)
      {| columns := ["ProtocolName"; "EchoTime"];
         records := [[PStr "T1"; PInt 5]; [PStr "T1"; PInt 10]] |} "T1"
      ["FlipAngle"; "SliceThickness"] = Raise ValueError.
Proof.
  split.
  - by apply (fetch_unique_rows_field_subset (H := no_float_repr) (H0 := reference_pandas)).
  - apply (fetch_unique_rows_field_subset (H := no_float_repr) (H0 := reference_pandas));
      [discriminate|].
    intros field Hfield Hcol.
    repeat (apply elem_of_cons in Hfield as [->|Hfield]);
      [| |by apply elem_of_nil in Hfield];
      repeat (apply elem_of_cons in Hcol as [Hcol|Hcol]);
      try discriminate; by apply elem_of_nil in Hcol.
Defined.

Lemma bind_Ok {A B : Type} (m : res A) (f : A → res B) (y : B) :
  (x ← m; f x) = Ok y → ∃ x, m = Ok x ∧ f x = Ok y.
Proof. destruct m as [x|e]; [eauto|discriminate]. Qed.


Example fetch_unique_rows_example :
  (out ← fetch_unique_rows (H := no_float_repr) (H0 := reference_pandas)
           example_table "T1" ["ImageType"; "EchoTime"];
   Ok (map (λ rec : gmap string pyval,
              (rec !! "ImageType", rec !! "EchoTime", rec !! "InstanceNumber")) out))
  = Ok [ (Some (PStr (String "[" (String dquote "ORIGINAL"
                        +:+ String dquote ", " +:+ String dquote "M"
                        +:+ String dquote "]"))),
          Some (PInt 5), None);
         (Some (PStr (String "[" (String dquote "ORIGINAL"
                        +:+ String dquote ", " +:+ String dquote "M"
                        +:+ String dquote "]"))),
          Some (PInt 7), None) ].
Proof. vm_compute. reflexivity. Qed.


(** ** The session map: joining and splitting keys *)

Lemma split_sep_no_sep (s : string) : has_sep s = false → split_sep s = [s].
Proof.
  induction s as [|c s IH]; [done|]. destruct s as [|c' s']; [done|].
  intros Hsep. change (has_sep (String c (String c' s')))
    with (is_colon c && is_colon c' || has_sep (String c' s')) in Hsep.
  apply orb_false_iff in Hsep as [Hcc Hs].
  change (split_sep (String c (String c' s')))
    with (if is_colon c && is_colon c' then "" :: split_sep s'
          else extend_first c (split_sep (String c' s'))).
  by rewrite Hcc, (IH Hs).
Qed.

Lemma split_sep_join (a b : string) :
  has_sep (a +:+ ":") = false →
  split_sep (a +:+ "::" +:+ b) = a :: split_sep b.
Proof.
  induction a as [|c a IH]; [done|]. destruct a as [|d a].
  - intros Hsep. change (is_colon c && true || false = false) in Hsep.
    change (split_sep ((String c "") +:+ "::" +:+ b))
      with (if is_colon c && true then "" :: split_sep (String ":" b)
            else extend_first c ("" :: split_sep b)).
    rewrite orb_false_r in Hsep. by rewrite Hsep.
  - intros Hsep.
    change (is_colon c && is_colon d || has_sep (String d a +:+ ":") = false) in Hsep.
    apply orb_false_iff in Hsep as [Hcd Ha].
    change (split_sep (String c (String d a) +:+ "::" +:+ b))
      with (if is_colon c && is_colon d then "" :: split_sep (a +:+ "::" +:+ b)
            else extend_first c (split_sep (String d a +:+ "::" +:+ b))).
    by rewrite Hcd, (IH Ha).
Qed.

(** The first piece of a non-empty string is empty only in front of a
    separator, and otherwise starts with the string's first character. *)
Lemma split_sep_first (c : ascii) (s p : string) (ps : list string) :
  split_sep (String c s) = p :: ps →
  (p = "" ∧ is_colon c = true) ∨ ∃ p', p = String c p'.
Proof.
  destruct s as [|c' s'].
  - intros [= <- <-]. eauto.
  - change (split_sep (String c (String c' s')))
      with (if is_colon c && is_colon c' then "" :: split_sep s'
            else extend_first c (split_sep (String c' s'))).
    destruct (is_colon c) eqn:Hc, (is_colon c'); cbn [andb].
    1: intros [= <- <-]; by left.
    all: destruct (split_sep (String c' s')); intros [= <- <-]; eauto.
Qed.

Lemma has_sep_cons (c : ascii) (s : string) :
  has_sep (String c s) =
    match s with
    | String c' _ => is_colon c && is_colon c' || has_sep s
    | "" => false
    end.
Proof. by destruct s. Qed.

Lemma split_sep_cons (c : ascii) (s : string) :
  split_sep (String c s) =
    match s with
    | String c' s' =>
        if is_colon c && is_colon c' then "" :: split_sep s'
        else extend_first c (split_sep s)
    | "" => [String c ""]
    end.
Proof. by destruct s. Qed.

(** No piece holds the separator. *)
Lemma split_sep_pieces (s : string) :
  Forall (λ p, has_sep p = false) (split_sep s).
Proof.
  cut (Forall (λ p, has_sep p = false) (split_sep s)
       ∧ ∀ c, Forall (λ p, has_sep p = false) (split_sep (String c s))); [tauto|].
  induction s as [|c' s [IH1 IH2]].
  - split; [|intros c]; by repeat constructor.
  - split; [apply IH2|]. intros c. rewrite split_sep_cons.
    destruct (is_colon c && is_colon c') eqn:Hcc.
    + constructor; [done|exact IH1].
    + specialize (IH2 c').
      destruct (split_sep (String c' s)) as [|p ps] eqn:Hsplit; [by repeat constructor|].
      apply Forall_cons in IH2 as [Hp Hps]. constructor; [|exact Hps].
      rewrite has_sep_cons.
      apply split_sep_first in Hsplit as [[-> _]|[p' ->]]; [done|].
      by rewrite Hcc, Hp.
Qed.

(** A piece that is not the last does not end where a separator starts. *)
Lemma split_sep_inner (s p q : string) (ps : list string) :
  split_sep s = p :: q :: ps → has_sep (p +:+ ":") = false.
Proof.
  revert p q ps. induction s as [|c s IH]; intros p q ps; [discriminate|].
  rewrite split_sep_cons. destruct s as [|c' s']; [discriminate|].
  destruct (is_colon c && is_colon c') eqn:Hcc.
  - by intros [= <- _].
  - destruct (split_sep (String c' s')) as [|p0 ps0] eqn:Hsplit; [discriminate|].
    intros [= <- ->]. specialize (IH p0 q ps eq_refl).
    change (has_sep (String c (p0 +:+ ":")) = false). rewrite has_sep_cons.
    apply split_sep_first in Hsplit as [[-> Hc']|[p' ->]].
    + simpl. rewrite Hc', andb_true_r in Hcc. by rewrite Hcc.
    + simpl in *. by rewrite Hcc, IH.
Qed.

(** Joining a key and splitting it gives the key back exactly on the keys
    that are [key_ok]. *)
Lemma split_join_key (k : session_key) :
  split_sep (join_sep k.1 k.2) = as_tuple k ↔ key_ok k = true.
Proof.
  destruct k as [a b]. unfold key_ok, join_sep, as_tuple. simpl.
  rewrite andb_true_iff, !negb_true_iff. split.
  - intros Hsplit. split.
    + by apply (split_sep_inner _ _ _ _ Hsplit).
    + pose proof (split_sep_pieces (a +:+ "::" +:+ b)) as Hpieces.
      rewrite Hsplit in Hpieces.
      by apply Forall_cons in Hpieces as [_ [Hb _]%Forall_cons].
  - intros [Ha Hb]. by rewrite split_sep_join, split_sep_no_sep.
Qed.

Lemma dict_set_fresh {K V : Type} `{EqDecision K} (k : K) (v : V) (d : list (K * V)) :
  k ∉ d.*1 → dict_set k v d = (d ++ [(k, v)])%list.
Proof.
  induction d as [|[k' v'] d IH]; intros Hk; simpl; [done|].
  rewrite fmap_cons, not_elem_of_cons in Hk. destruct Hk as [Hne Hk].
  rewrite decide_False by done. by rewrite IH.
Qed.

(** A comprehension whose keys are distinct keeps its items as they are. *)
Lemma dict_comprehension_NoDup {K V : Type} `{EqDecision K} (kvs : list (K * V)) :
  NoDup kvs.*1 → dict_comprehension kvs = kvs.
Proof.
  unfold dict_comprehension.
  cut (∀ acc, NoDup (acc ++ kvs)%list.*1 →
              foldl (λ d kv, dict_set kv.1 kv.2 d) acc kvs = (acc ++ kvs)%list).
  { intros Hgen Hnd. by apply (Hgen []). }
  induction kvs as [|[k v] kvs IH]; intros acc Hnd; simpl.
  - by rewrite app_nil_r.
  - rewrite dict_set_fresh.
    + rewrite IH; rewrite <- app_assoc; [done|exact Hnd].
    + rewrite fmap_app in Hnd. apply NoDup_app in Hnd as (_ & Hfresh & _).
      intros Hin. apply (Hfresh k Hin). rewrite fmap_cons. by left.
Qed.

Lemma NoDup_fmap_keys {A K K' : Type} (f : A → K') (g : A → K) (l : list A) :
  (∀ x y, x ∈ l → y ∈ l → f x = f y → g x = g y) →
  NoDup (g <$> l) → NoDup (map f l).
Proof.
  induction l as [|x l IH]; intros Hinj Hnd; [constructor|].
  rewrite fmap_cons in Hnd. apply NoDup_cons in Hnd as [Hx Hnd].
  simpl. apply NoDup_cons. split.
  - intros (y & Hxy & Hy)%list_elem_of_fmap. apply Hx.
    rewrite (Hinj x y); [by apply list_elem_of_fmap_2|by left|by right|done].
  - apply IH; [|done]. intros y z Hy Hz. apply Hinj; by right.
Qed.

(** C3, as the code has it. A session map whose keys are distinct and
    whose keys and values are all [key_ok] (no ["::"] in the series label,
    nor in the acquisition followed by a colon) round-trips: joining each
    key and value with ["::"] and splitting them again gives back exactly
    the original pairs, in order. *)
Theorem session_map_roundtrip (session_map : list (session_key * session_key)) :
  NoDup session_map.*1 →
  Forall (λ kv, key_ok kv.1 = true ∧ key_ok kv.2 = true) session_map →
  series_map (session_map_serializable session_map)
  = map (λ kv, (as_tuple kv.1, as_tuple kv.2)) session_map.
Proof.
  intros Hnd Hok. unfold series_map, session_map_serializable.
  assert (Hkey : ∀ kv, kv ∈ session_map →
            split_sep (join_sep kv.1.1 kv.1.2) = as_tuple kv.1
            ∧ split_sep (join_sep kv.2.1 kv.2.2) = as_tuple kv.2).
  { intros kv Hkv. rewrite Forall_forall in Hok. destruct (Hok kv Hkv).
    split; by apply split_join_key. }
  rewrite (dict_comprehension_NoDup (map _ session_map)).
  - rewrite dict_comprehension_NoDup.
    + rewrite map_map. apply map_ext_in. intros kv Hkv%list_elem_of_In.
      simpl. by destruct (Hkey kv Hkv) as [-> ->].
    + rewrite !map_map. apply (NoDup_fmap_keys _ fst); [|done].
      intros x y Hx Hy. simpl.
      destruct (Hkey x Hx) as [-> _], (Hkey y Hy) as [-> _].
      destruct x as [[a s] v], y as [[a' s'] v']. by intros [= -> ->].
  - rewrite !map_map. apply (NoDup_fmap_keys _ fst); [|done].
    intros x y Hx Hy. simpl. intros Hjoin.
    destruct (Hkey x Hx) as [Hsx _], (Hkey y Hy) as [Hsy _].
    rewrite Hjoin, Hsy in Hsx.
    destruct x as [[a s] v], y as [[a' s'] v']. by injection Hsx as -> ->.
Qed.

Lemma session_map_roundtrip_witness :
  series_map (session_map_serializable
                [ (("T1:w", "Series 1"), ("ref T1", "Series 2"));
                  (("T1:w", "Series 2"), ("ref T1", "Series 1")) ])
  = [ (["T1:w"; "Series 1"], ["ref T1"; "Series 2"]);
      (["T1:w"; "Series 2"], ["ref T1"; "Series 1"]) ].
Proof.
  apply (session_map_roundtrip
           [ (("T1:w", "Series 1"), ("ref T1", "Series 2"));
             (("T1:w", "Series 2"), ("ref T1", "Series 1")) ]).
  - apply NoDup_cons. split; [|apply NoDup_singleton].
    intros Hin%list_elem_of_singleton. discriminate.
  - repeat constructor.
Defined.

(** C3, as stated, fails when an acquisition name holds the separator:
    the key ("a::b", "Series 1") comes back as a tuple of three parts. *)
Lemma session_map_roundtrip_counterexample :
  NoDup [ (("a::b", "Series 1"), ("ref", "Series 1")) ].*1
  ∧ series_map (session_map_serializable
                  [ (("a::b", "Series 1"), ("ref", "Series 1")) ])
    = [ (["a"; "b"; "Series 1"], ["ref"; "Series 1"]) ]
  ∧ series_map (session_map_serializable
                  [ (("a::b", "Series 1"), ("ref", "Series 1")) ])
    ≠ [ (as_tuple ("a::b", "Series 1"), as_tuple ("ref", "Series 1")) ].
Proof.
  split; [apply NoDup_singleton|]. split; [reflexivity|discriminate].
Qed.

(** ** Module-reference mode *)

Lemma elem_of_unique {A : Type} `{EqDecision A} (l : list A) (a : A) :
  a ∈ unique l ↔ a ∈ l.
Proof.
  induction l as [|x l IH]; simpl; [done|].
  rewrite !elem_of_cons, list_elem_of_filter, IH.
  destruct (decide (a = x)) as [->|Hne]; [by split; left|].
  split; [intros [?|[_ ?]]|intros [?|?]]; auto.
Qed.

Lemma unique_NoDup {A : Type} `{EqDecision A} (l : list A) : NoDup (unique l).
Proof.
  induction l as [|x l IH]; simpl; [constructor|].
  apply NoDup_cons. split.
  - rewrite list_elem_of_filter. by intros [? _].
  - by apply NoDup_filter.
Qed.

Lemma dict_lookup_zip {K V : Type} `{EqDecision K} (ks : list K) (vs : list V)
    (i : nat) (k : K) :
  NoDup ks → ks !! i = Some k → dict_lookup k (zip ks vs) = vs !! i.
Proof.
  revert vs i. induction ks as [|k' ks IH]; intros vs i Hnd Hk; [done|].
  apply NoDup_cons in Hnd as [Hk' Hnd]. destruct vs as [|v vs]; [done|].
  destruct i as [|i]; simpl in *.
  - injection Hk as ->. by rewrite decide_True.
  - rewrite decide_False; [by apply IH|].
    intros ->. apply Hk'. by apply list_elem_of_lookup_2 in Hk.
Qed.

Lemma dict_lookup_zip_Some {K V : Type} `{EqDecision K} (ks : list K) (vs : list V)
    (k : K) (v : V) :
  dict_lookup k (zip ks vs) = Some v → ∃ i, ks !! i = Some k ∧ vs !! i = Some v.
Proof.
  revert vs. induction ks as [|k' ks IH]; intros vs; [done|].
  destruct vs as [|v' vs]; [done|]. simpl. destruct (decide (k' = k)) as [->|Hne].
  - intros [= ->]. by exists 0.
  - intros (i & Hi & Hv)%IH. by exists (S i).
Qed.

Lemma NoDup_zip_keys {K V : Type} (ks : list K) (vs : list V) :
  NoDup ks → NoDup (zip ks vs).*1.
Proof.
  revert vs. induction ks as [|k ks IH]; intros vs Hnd; [constructor|].
  apply NoDup_cons in Hnd as [Hk Hnd]. destruct vs as [|v vs]; [constructor|].
  simpl. apply NoDup_cons. split; [|by apply IH].
  intros ([k' v'] & -> & Hin%elem_of_zip_l)%list_elem_of_fmap. by apply Hk.
Qed.

(** C7. In module-reference mode the mapper pairs the input acquisitions
    with the reference acquisitions by position, up to the length of the
    shorter list: the input at a position has the reference at that position
    when there is one and is unmapped otherwise, and a reference beyond the
    inputs is nobody's image.  The imbalance reaches the caller through the
    result itself, which carries both lists in full next to the map: the
    map is shorter than a list exactly when that list is the longer one. *)
Theorem module_mapping_positional (acquisition_column ref_models_keys : list string) :
  let out := module_mapping_output acquisition_column ref_models_keys in
  session_map out = zip (input_acquisitions out) (reference_acquisitions out)
  ∧ length (session_map out)
    = length (input_acquisitions out) `min` length (reference_acquisitions out)
  ∧ (∀ i a, input_acquisitions out !! i = Some a →
            dict_lookup a (session_map out) = reference_acquisitions out !! i)
  ∧ (∀ i r, reference_acquisitions out !! i = Some r →
            length (input_acquisitions out) ≤ i →
            ∀ a, dict_lookup a (session_map out) ≠ Some r)
  ∧ (∀ a, a ∈ input_acquisitions out ↔ a ∈ acquisition_column)
  ∧ (∀ r, r ∈ reference_acquisitions out ↔ r ∈ ref_models_keys)
  ∧ (length (session_map out) < length (input_acquisitions out)
     ↔ length (reference_acquisitions out) < length (input_acquisitions out))
  ∧ (length (session_map out) < length (reference_acquisitions out)
     ↔ length (input_acquisitions out) < length (reference_acquisitions out)).
Proof.
  simpl.
  pose proof (unique_NoDup acquisition_column) as Hin.
  pose proof (unique_NoDup ref_models_keys) as Href.
  assert (Hmap : dict_comprehension (zip (unique acquisition_column) (unique ref_models_keys))
                 = zip (unique acquisition_column) (unique ref_models_keys)).
  { by apply dict_comprehension_NoDup, NoDup_zip_keys. }
  rewrite Hmap, length_zip_with.
  split; [done|]. split; [done|]. split; [|split; [|split; [|split; [|split]]]].
  - intros i a Hi. by apply dict_lookup_zip.
  - intros i r Hi Hlen a (j & Hj & Hr)%dict_lookup_zip_Some.
    apply lookup_lt_Some in Hj.
    assert (i = j) by (by apply (NoDup_lookup _ i j r Href)). lia.
  - apply elem_of_unique.
  - apply elem_of_unique.
  - lia.
  - lia.
Qed.

Example module_mapping_example :
  module_mapping_output ["T1"; "T1"; "T2"; "DWI"; "T2"] ["ref_T1"; "ref_T2"]
  = {| reference_acquisitions := ["ref_T1"; "ref_T2"];
       input_acquisitions := ["T1"; "T2"; "DWI"];
       session_map := [("T1", "ref_T1"); ("T2", "ref_T2")] |}.
Proof. reflexivity. Qed.

(** ** Series labels *)

Section SeriesOrder.
Context {K : Type} (key_compare : K → K → comparison).

(** [key_compare] orders the keys: a strict total order on the groups. *)
Hypothesis compare_antisym : ∀ x y, key_compare y x = CompOpp (key_compare x y).
Hypothesis compare_trans :
  ∀ x y z, key_compare x y = Lt → key_compare y z = Lt → key_compare x z = Lt.
Hypothesis compare_Eq : ∀ x y z, key_compare x y = Eq → key_compare x z = key_compare y z.

Abbreviation key_lt := (λ x y, key_compare x y = Lt).

Lemma compare_refl (x : K) : key_compare x x = Eq.
Proof. pose proof (compare_antisym x x). by destruct (key_compare x x). Qed.

Lemma compare_representatives (k1 k2 g1 g2 : K) :
  key_compare k1 g1 = Eq → key_compare k2 g2 = Eq →
  key_compare k1 k2 = key_compare g1 g2.
Proof.
  intros H1 H2. rewrite (compare_Eq _ _ _ H1).
  rewrite (compare_antisym k2 g1), (compare_Eq _ _ _ H2).
  by rewrite <- (compare_antisym g2 g1).
Qed.

Lemma insert_key_elem_of (k x : K) (l : list K) :
  x ∈ insert_key key_compare k l → x = k ∨ x ∈ l.
Proof.
  induction l as [|k' l IH]; simpl.
  - intros ->%list_elem_of_singleton. by left.
  - destruct (key_compare k k').
    + by right.
    + intros [->|?]%elem_of_cons; [by left|by right].
    + intros [->|Hx]%elem_of_cons; [right; by left|].
      destruct (IH Hx) as [->|?]; [by left|right; by right].
Qed.

Lemma insert_key_keeps (k x : K) (l : list K) :
  x ∈ l → x ∈ insert_key key_compare k l.
Proof.
  induction l as [|k' l IH]; simpl; [by intros ?%elem_of_nil|].
  destruct (key_compare k k'); [done|by intros ?; right|].
  intros [->|Hx]%elem_of_cons; [by left|right; by apply IH].
Qed.

Lemma insert_key_represents (k : K) (l : list K) :
  ∃ g, g ∈ insert_key key_compare k l ∧ key_compare k g = Eq.
Proof.
  induction l as [|k' l (g & Hg & Hkg)]; simpl.
  - exists k. split; [by left|apply compare_refl].
  - destruct (key_compare k k') eqn:Hkk'.
    + exists k'. split; [by left|done].
    + exists k. split; [by left|apply compare_refl].
    + exists g. split; [by right|done].
Qed.

Lemma insert_key_sorted (k : K) (l : list K) :
  StronglySorted key_lt l → StronglySorted key_lt (insert_key key_compare k l).
Proof.
  induction 1 as [|k' l Hsorted IH Hall]; simpl.
  - by repeat constructor.
  - destruct (key_compare k k') eqn:Hkk'.
    + by constructor.
    + constructor; [by constructor|]. constructor; [done|].
      apply Forall_impl with (1 := Hall). intros z Hz. by apply (compare_trans k k' z).
    + constructor; [done|]. apply Forall_forall. intros z Hz.
      apply insert_key_elem_of in Hz as [->|Hz].
      * by rewrite compare_antisym, Hkk'.
      * rewrite Forall_forall in Hall. by apply Hall.
Qed.

Lemma group_keys_sorted (keys : list K) :
  StronglySorted key_lt (group_keys key_compare keys).
Proof.
  induction keys as [|k keys IH]; simpl; [constructor|].
  by apply insert_key_sorted.
Qed.

Lemma group_keys_represents (keys : list K) (k : K) :
  k ∈ keys → ∃ g, g ∈ group_keys key_compare keys ∧ key_compare k g = Eq.
Proof.
  induction keys as [|k' keys IH]; [by intros ?%elem_of_nil|].
  intros [->|Hk]%elem_of_cons; simpl.
  - apply insert_key_represents.
  - destruct (IH Hk) as (g & Hg & Hkg). exists g. split; [|done].
    by apply insert_key_keeps.
Qed.

Lemma group_keys_elem_of (keys : list K) (g : K) :
  g ∈ group_keys key_compare keys → g ∈ keys.
Proof.
  induction keys as [|k keys IH]; simpl; [done|].
  intros [->|Hg]%insert_key_elem_of; [by left|right; by apply IH].
Qed.

Lemma sorted_lookup_lt (l : list K) (i j : nat) (x y : K) :
  StronglySorted key_lt l → i < j → l !! i = Some x → l !! j = Some y →
  key_compare x y = Lt.
Proof.
  intros Hsorted. revert i j. induction Hsorted as [|z l _ IH Hall]; intros i j Hij Hi Hj.
  - done.
  - destruct j as [|j]; [lia|]. destruct i as [|i]; simpl in *.
    + injection Hi as ->. rewrite Forall_forall in Hall.
      apply Hall. by apply list_elem_of_lookup_2 in Hj.
    + apply (IH i j); [lia|done..].
Qed.

(** The index of a key is the position of its group. *)
Lemma key_index_found (k : K) (l : list K) :
  (∃ g, g ∈ l ∧ key_compare k g = Eq) →
  ∃ g, l !! key_index key_compare k l = Some g ∧ key_compare k g = Eq.
Proof.
  induction l as [|k' l IH]; intros (g & Hg & Hkg); [by apply elem_of_nil in Hg|].
  simpl. destruct (key_compare k k') eqn:Hkk'; [by exists k'| |].
  all: apply elem_of_cons in Hg as [->|Hg]; [congruence|]; apply IH; by exists g.
Qed.

Lemma key_index_position (k g : K) (l : list K) (i : nat) :
  StronglySorted key_lt l → l !! i = Some g → key_compare k g = Eq →
  key_index key_compare k l = i.
Proof.
  intros Hsorted Hi Hkg.
  destruct (key_index_found k l) as (g' & Hi' & Hkg').
  { exists g. split; [by apply list_elem_of_lookup_2 in Hi|done]. }
  pose proof (compare_representatives k k g' g Hkg' Hkg) as Hgg'.
  rewrite compare_refl in Hgg'.
  destruct (Nat.lt_total (key_index key_compare k l) i) as [Hlt|[Heq|Hgt]]; [|done|].
  - rewrite (sorted_lookup_lt l _ i g' g Hsorted Hlt Hi' Hi) in Hgg'. discriminate.
  - pose proof (sorted_lookup_lt l i _ g g' Hsorted Hgt Hi Hi') as Hlt.
    rewrite compare_antisym, Hlt in Hgg'. discriminate.
Qed.

(** On the keys of one group list, [key_index] is an order isomorphism. *)
Lemma key_index_compare (keys : list K) (k1 k2 : K) :
  k1 ∈ keys → k2 ∈ keys →
  (key_index key_compare k1 (group_keys key_compare keys)
     ?= key_index key_compare k2 (group_keys key_compare keys))
  = key_compare k1 k2.
Proof.
  intros H1 H2. pose proof (group_keys_sorted keys) as Hsorted.
  destruct (key_index_found k1 (group_keys key_compare keys)) as (g1 & Hi1 & Hg1);
    [by apply group_keys_represents|].
  destruct (key_index_found k2 (group_keys key_compare keys)) as (g2 & Hi2 & Hg2);
    [by apply group_keys_represents|].
  rewrite (compare_representatives k1 k2 g1 g2 Hg1 Hg2).
  destruct (Nat.compare_spec (key_index key_compare k1 (group_keys key_compare keys))
              (key_index key_compare k2 (group_keys key_compare keys))) as [Heq|Hlt|Hgt].
  - rewrite Heq in Hi1. rewrite Hi1 in Hi2. injection Hi2 as ->.
    symmetry. apply compare_refl.
  - symmetry. by apply (sorted_lookup_lt _ _ _ g1 g2 Hsorted Hlt).
  - rewrite compare_antisym.
    by rewrite (sorted_lookup_lt _ _ _ g2 g1 Hsorted Hgt).
Qed.

(** Every index below the index of a key is the index of some key. *)
Lemma key_index_below (keys : list K) (k : K) (n : nat) :
  k ∈ keys → n ≤ key_index key_compare k (group_keys key_compare keys) →
  ∃ k', k' ∈ keys ∧ key_index key_compare k' (group_keys key_compare keys) = n.
Proof.
  intros Hk Hn. pose proof (group_keys_sorted keys) as Hsorted.
  destruct (key_index_found k (group_keys key_compare keys)) as (g & Hi & _);
    [by apply group_keys_represents|].
  apply lookup_lt_Some in Hi.
  destruct (lookup_lt_is_Some_2 (group_keys key_compare keys) n) as [g' Hg']; [lia|].
  exists g'. split.
  - apply group_keys_elem_of. by apply list_elem_of_lookup_2 in Hg'.
  - apply (key_index_position g' g' _ n Hsorted Hg'). apply compare_refl.
Qed.
End SeriesOrder.

Lemma elem_of_concat {A : Type} (x : A) (ls : list (list A)) :
  x ∈ concat ls ↔ ∃ l, x ∈ l ∧ l ∈ ls.
Proof.
  induction ls as [|l ls IH]; simpl.
  - split; [by intros ?%elem_of_nil|by intros (? & _ & ?%elem_of_nil)].
  - rewrite elem_of_app, IH. split.
    + intros [Hx|(l' & Hx & Hl')]; [exists l; split; [done|by left]|].
      exists l'. split; [done|by right].
    + intros (l' & Hx & [->|Hl']%elem_of_cons); [by left|right; by exists l'].
Qed.

Lemma dict_lookup_unique {K V : Type} `{EqDecision K} (k : K) (v : V) (d : list (K * V)) :
  (k, v) ∈ d → (∀ v', (k, v') ∈ d → v' = v) → dict_lookup k d = Some v.
Proof.
  induction d as [|[k' v'] d IH]; intros Hin Huniq; [by apply elem_of_nil in Hin|].
  simpl. destruct (decide (k' = k)) as [->|Hne].
  - f_equal. apply Huniq. by left.
  - apply IH.
    + apply elem_of_cons in Hin as [[= <- <-]|Hin]; done.
    + intros v'' Hv''. apply Huniq. by right.
Qed.

Lemma dict_lookup_absent {K V : Type} `{EqDecision K} (k : K) (d : list (K * V)) :
  (∀ v, (k, v) ∉ d) → dict_lookup k d = None.
Proof.
  induction d as [|[k' v'] d IH]; intros Hnone; [done|].
  simpl. destruct (decide (k' = k)) as [->|Hne].
  - exfalso. apply (Hnone v'). by left.
  - apply IH. intros v Hv. apply (Hnone v). by right.
Qed.

Lemma dict_lookup_map {K V W : Type} `{EqDecision K} (g : K → V → W) (k : K)
    (d : list (K * V)) :
  dict_lookup k (map (λ kv : K * V, (kv.1, g kv.1 kv.2)) d) = g k <$> dict_lookup k d.
Proof.
  induction d as [|[k' v] d IH]; simpl; [done|].
  destruct (decide (k' = k)) as [->|]; [done|exact IH].
Qed.

Section SeriesNumbers.
Context {K : Type} (key_compare : K → K → comparison).
Implicit Types (session : list (session_row (K := K))) (a : string).

Lemma elem_of_group_rows session a (i : nat) (r : session_row) :
  (i, r) ∈ group_rows session a ↔ session !! i = Some r ∧ ProtocolName r = Some a.
Proof.
  unfold group_rows. rewrite list_elem_of_filter, elem_of_lookup_imap. simpl. split.
  - intros [Ha (j & y & [= -> ->] & Hj)]. done.
  - intros [Hi Ha]. split; [done|]. by exists i, r.
Qed.

Lemma elem_of_group_row_keys session a (k : K) :
  k ∈ group_row_keys session a
  ↔ ∃ i r, session !! i = Some r ∧ ProtocolName r = Some a ∧ reference_key r = k.
Proof.
  unfold group_row_keys.
  change (map (λ ir : nat * session_row, reference_key ir.2) (group_rows session a))
    with ((λ ir : nat * session_row, reference_key ir.2) <$> group_rows session a).
  rewrite list_elem_of_fmap. split.
  - intros ([i r] & -> & [Hi Ha]%elem_of_group_rows). by exists i, r.
  - intros (i & r & Hi & Ha & <-). exists (i, r). split; [done|].
    by apply elem_of_group_rows.
Qed.

Lemma series_of_group_fmap (group : list (nat * session_row)) :
  series_of_group key_compare group
  = map (λ ir, (ir.1, S (key_index key_compare (reference_key ir.2)
                          (group_keys key_compare
                             (map (λ ir, reference_key ir.2) group))))) group.
Proof.
  unfold series_of_group, ngroup.
  generalize (group_keys key_compare (map (λ ir, reference_key ir.2) group)).
  intros G. induction group as [|[i r] group IH]; simpl; [done|]. by rewrite <- IH.
Qed.

Lemma numbers_of_series_numbers session :
  numbers_of (series_numbers key_compare session)
  = concat (map (λ a, series_of_group key_compare (group_rows session a))
              (acquisitions session)).
Proof.
  unfold series_numbers, group_rows.
  destruct (acquisitions session) as [|a [|b names]]; simpl; [done| |done].
  by rewrite app_nil_r.
Qed.

Lemma elem_of_series_numbers session (i n : nat) :
  (i, n) ∈ numbers_of (series_numbers key_compare session)
  ↔ ∃ r a, session !! i = Some r ∧ ProtocolName r = Some a
           ∧ n = S (key_index key_compare (reference_key r)
                      (group_keys key_compare (group_row_keys session a))).
Proof.
  rewrite numbers_of_series_numbers, elem_of_concat. split.
  - intros (l & Hin & Hl).
    change (l ∈ (λ a, series_of_group key_compare (group_rows session a))
                <$> acquisitions session) in Hl.
    apply list_elem_of_fmap in Hl as (a & -> & _).
    rewrite series_of_group_fmap in Hin.
    apply (list_elem_of_fmap_1 _ (group_rows session a)) in Hin as ([j r] & [= -> ->] & Hjr).
    apply elem_of_group_rows in Hjr as [Hj Ha]. by exists r, a.
  - intros (r & a & Hi & Ha & ->).
    exists (series_of_group key_compare (group_rows session a)). split.
    + rewrite series_of_group_fmap.
      apply (list_elem_of_fmap_2' _ (group_rows session a) (i, r)); [|done].
      by apply elem_of_group_rows.
    + apply (list_elem_of_fmap_2 (λ a, series_of_group key_compare (group_rows session a))).
      apply elem_of_unique, list_elem_of_omap. exists r. split; [|done].
      by apply list_elem_of_lookup_2 in Hi.
Qed.

Lemma series_ordinal_Some session (i : nat) (r : session_row) (a : string) :
  session !! i = Some r → ProtocolName r = Some a →
  series_ordinal key_compare session i
  = Some (S (key_index key_compare (reference_key r)
               (group_keys key_compare (group_row_keys session a)))).
Proof.
  intros Hi Ha. unfold series_ordinal. apply dict_lookup_unique.
  - apply elem_of_series_numbers. by exists r, a.
  - intros n (r' & a' & Hi' & Ha' & ->)%elem_of_series_numbers.
    rewrite Hi in Hi'. injection Hi' as <-. rewrite Ha in Ha'. by injection Ha' as <-.
Qed.

Lemma series_ordinal_None session (i : nat) (r : session_row) :
  session !! i = Some r → ProtocolName r = None →
  series_ordinal key_compare session i = None.
Proof.
  intros Hi Ha. unfold series_ordinal. apply dict_lookup_absent.
  intros n (r' & a' & Hi' & Ha' & _)%elem_of_series_numbers.
  rewrite Hi in Hi'. injection Hi' as <-. congruence.
Qed.

(** The label of a row: NaN without a number; with one, "Series n" when
    the results of several groups were concatenated, and the text of a whole
    column when the result of a single group was stacked. *)
Lemma assign_series_lookup `{ColumnRepr} session (i : nat) (r : session_row) :
  session !! i = Some r →
  assign_series key_compare session !! i
  = Some match series_ordinal key_compare session i with
         | Some n => PStr ("Series " +:+ match acquisitions session with
                                         | [_] => column_repr i n
                                         | _ => pretty n
                                         end)
         | None => PFloat S754_nan
         end.
Proof.
  intros Hi. unfold assign_series, series_ordinal, series_numbers.
  rewrite list_lookup_imap, Hi. simpl. f_equal.
  destruct (acquisitions session) as [|a [|b names]]; simpl; [done| |].
  - pose proof (dict_lookup_map (λ i n, "Series " +:+ column_repr i n) i
                  (series_of_group key_compare
                     (filter (λ ir, ProtocolName ir.2 = Some a)
                        (imap (λ i r, (i, r)) session)))) as Hlabel.
    simpl in Hlabel. rewrite Hlabel. clear Hlabel.
    destruct (dict_lookup i _); reflexivity.
  - match goal with
    | |- context [dict_lookup i (map _ ?numbers)] =>
        pose proof (dict_lookup_map (λ _ n, "Series " +:+ pretty n) i numbers) as Hlabel
    end.
    simpl in Hlabel. rewrite Hlabel. clear Hlabel.
    destruct (dict_lookup i _); reflexivity.
Qed.
End SeriesNumbers.




(** * Further properties *)

(** ** The normalizer: hashable output, and its one exception *)

Lemma sequence_Raise {A : Type} (ms : list (res A)) (e : exn) :
  sequence ms = Raise e → ∃ m, m ∈ ms ∧ m = Raise e.
Proof.
  induction ms as [|m ms IH]; simpl; [discriminate|].
  destruct m as [a|e'].
  - simpl. destruct (sequence ms) as [xs|e'']; simpl; [discriminate|].
    intros [= <-]. destruct (IH eq_refl) as (m & Hm & ->).
    exists (Raise e''). split; [by right|done].
  - intros [= <-]. exists (Raise e'). split; [by left|done].
Qed.

Lemma json_dumps_TypeError `{FloatRepr} (v : pyval) (e : exn) :
  json_dumps v = Raise e → e = TypeError.
Proof.
  revert e. induction v as [| | | | |l IH|l IH|l IH|items IH] using pyval_ind; intros e.
  1,3,4,5: discriminate.
  - by destruct b.
  - rewrite (json_dumps_array _ l) by eauto.
    destruct (sequence (map json_dumps l)) as [parts|e'] eqn:Hseq; [discriminate|].
    intros [= <-]. apply sequence_Raise in Hseq as (m & Hm & ->).
    apply (list_elem_of_fmap_1 json_dumps) in Hm as (x & Hx & Hin).
    rewrite Forall_forall in IH. by apply (IH x Hin).
  - rewrite (json_dumps_array _ l) by eauto.
    destruct (sequence (map json_dumps l)) as [parts|e'] eqn:Hseq; [discriminate|].
    intros [= <-]. apply sequence_Raise in Hseq as (m & Hm & ->).
    apply (list_elem_of_fmap_1 json_dumps) in Hm as (x & Hx & Hin).
    rewrite Forall_forall in IH. by apply (IH x Hin).
  - by intros [= <-].
  - rewrite json_dumps_object.
    destruct (sequence _) as [parts|e'] eqn:Hseq; [discriminate|].
    intros [= <-]. apply sequence_Raise in Hseq as (m & Hm & Hraise).
    apply (list_elem_of_fmap_1 _ (sort_keys _)) in Hm as ([k r] & -> & Hin).
    rewrite sort_keys_Permutation in Hin.
    apply (list_elem_of_fmap_1 _ items) in Hin as ([k' v] & [= -> ->] & Hin).
    rewrite Forall_forall in IH. specialize (IH _ Hin). simpl in *.
    destruct (json_dumps v) as [s|e'']; [discriminate|].
    injection Hraise as <-. by apply IH.
Qed.

(** X1. What [make_hashable] returns can be hashed: it holds no list, dict
    or set at any depth. *)
Theorem make_hashable_hashable `{FloatRepr} (v w : pyval) :
  make_hashable v = Ok w → hashable w = true.
Proof.
  revert w. induction v as [| | | | |l IH|l IH|l IH|items IH] using pyval_ind;
    intros w Hw.
  1-5: by injection Hw as <-.
  - rewrite make_hashable_encoded in Hw by eauto.
    destruct (json_dumps (PList l)); [|discriminate]. by injection Hw as <-.
  - rewrite (make_hashable_elementwise _ l) in Hw by eauto.
    destruct (sequence (map make_hashable l)) as [ws|e] eqn:Hseq; [|discriminate].
    injection Hw as <-. simpl. apply forallb_Forall.
    apply sequence_map_Ok in Hseq.
    induction Hseq as [|x y l ws Hxy _ IHseq]; [constructor|].
    apply Forall_cons in IH as [IHx IHl]. constructor; eauto.
  - rewrite (make_hashable_elementwise _ l) in Hw by eauto.
    destruct (sequence (map make_hashable l)) as [ws|e] eqn:Hseq; [|discriminate].
    injection Hw as <-. simpl. apply forallb_Forall.
    apply sequence_map_Ok in Hseq.
    induction Hseq as [|x y l ws Hxy _ IHseq]; [constructor|].
    apply Forall_cons in IH as [IHx IHl]. constructor; eauto.
  - rewrite make_hashable_encoded in Hw by eauto.
    destruct (json_dumps (PDict items)); [|discriminate]. by injection Hw as <-.
Qed.

Lemma make_hashable_hashable_witness :
  hashable (PTuple [PStr "[1, [2]]"; PTuple [PInt 3]]) = true.
Proof.
  apply (make_hashable_hashable (H := no_float_repr)
           (PSet [PList [PInt 1; PTuple [PInt 2]]; PSet [PInt 3]])).
  reflexivity.
Defined.

Lemma make_hashable_TypeError `{FloatRepr} (v : pyval) (e : exn) :
  make_hashable v = Raise e → e = TypeError.
Proof.
  revert e. induction v as [| | | | |l IH|l IH|l IH|items IH] using pyval_ind; intros e.
  1-5: discriminate.
  - rewrite make_hashable_encoded by eauto.
    destruct (json_dumps (PList l)) as [s|e'] eqn:Hdumps; [discriminate|].
    intros [= <-]. by apply json_dumps_TypeError in Hdumps.
  - rewrite (make_hashable_elementwise _ l) by eauto.
    destruct (sequence (map make_hashable l)) as [ws|e'] eqn:Hseq; [discriminate|].
    intros [= <-]. apply sequence_Raise in Hseq as (m & Hm & ->).
    apply (list_elem_of_fmap_1 make_hashable) in Hm as (x & Hx & Hin).
    rewrite Forall_forall in IH. by apply (IH x Hin).
  - rewrite (make_hashable_elementwise _ l) by eauto.
    destruct (sequence (map make_hashable l)) as [ws|e'] eqn:Hseq; [discriminate|].
    intros [= <-]. apply sequence_Raise in Hseq as (m & Hm & ->).
    apply (list_elem_of_fmap_1 make_hashable) in Hm as (x & Hx & Hin).
    rewrite Forall_forall in IH. by apply (IH x Hin).
  - rewrite make_hashable_encoded by eauto.
    destruct (json_dumps (PDict items)) as [s|e'] eqn:Hdumps; [discriminate|].
    intros [= <-]. by apply json_dumps_TypeError in Hdumps.
Qed.


(** ** The JSON cleaner *)

Section npval_induction.
Variable P : npval → Prop.
Hypothesis HPy : ∀ v, P (NPy v).
Hypothesis HList : ∀ l, Forall P l → P (NList l).
Hypothesis HTuple : ∀ l, Forall P l → P (NTuple l).
Hypothesis HSet : ∀ l, Forall P l → P (NSet l).
Hypothesis HDict : ∀ items, Forall (λ kv, P kv.2) items → P (NDict items).
Hypothesis HArray : ∀ tolist, P tolist → P (NArray tolist).
Hypothesis HInteger : ∀ z, P (NInteger z).
Hypothesis HFloating : ∀ float64 f, P (NFloating float64 f).

Fixpoint npval_ind (v : npval) : P v :=
  let all :=
    fix all (l : list npval) : Forall P l :=
      match l with
      | [] => List.Forall_nil P
      | x :: l' => List.Forall_cons P x l' (npval_ind x) (all l')
      end in
  match v with
  | NPy v => HPy v
  | NList l => HList l (all l)
  | NTuple l => HTuple l (all l)
  | NSet l => HSet l (all l)
  | NDict items =>
      HDict items
        ((fix all_items (l : list (string * npval)) : Forall (λ kv, P kv.2) l :=
            match l with
            | [] => List.Forall_nil _
            | kv :: l' => List.Forall_cons _ kv l' (npval_ind kv.2) (all_items l')
            end) items)
  | NArray tolist => HArray tolist (npval_ind tolist)
  | NInteger z => HInteger z
  | NFloating float64 f => HFloating float64 f
  end.
End npval_induction.

Lemma map_fixed_Forall {A : Type} (f g : A → A) (l : list A) :
  Forall (λ x, f (g x) = g x) l → map f (map g l) = map g l.
Proof.
  induction 1 as [|x l Hx _ IH]; simpl; [done|]. by rewrite Hx, IH.
Qed.

Lemma Forall_modus_ponens {A : Type} (P Q : A → Prop) (l : list A) :
  Forall (λ x, P x → Q x) l → Forall P l → Forall Q l.
Proof.
  induction 1 as [|x l Hx _ IH]; intros Hall; [constructor|].
  apply Forall_cons in Hall as [HP Hall]. constructor; [by apply Hx|by apply IH].
Qed.

(** On builtin values: cleaning is idempotent, leaves no NaN and no
    infinity where it looks, and changes nothing to what [json.dumps]
    rejects. *)
Lemma clean_for_json_builtin_idempotent (obj : pyval) :
  clean_for_json (clean_for_json obj) = clean_for_json obj.
Proof.
  induction obj as [| | |f| |l IH|l IH|l IH|items IH] using pyval_ind; try done.
  - simpl. by destruct (float_is_nan f || float_is_inf f) eqn:Hf; simpl; rewrite ?Hf.
  - simpl. f_equal. by apply map_fixed_Forall.
  - simpl. f_equal. rewrite map_map. simpl.
    induction IH as [|[k v] items Hv _ IHitems]; simpl; [done|].
    simpl in Hv. by rewrite Hv, IHitems.
Qed.

Lemma clean_for_json_builtin_clean (obj : pyval) :
  json_clean (clean_for_json obj) = true.
Proof.
  induction obj as [| | |f| |l IH|l IH|l IH|items IH] using pyval_ind; try done.
  - simpl. by destruct (float_is_nan f || float_is_inf f) eqn:Hf; simpl; rewrite ?Hf.
  - simpl. apply forallb_Forall.
    induction IH as [|x l Hx _ IHl]; simpl; constructor; done.
  - simpl. apply forallb_Forall.
    induction IH as [|[k v] items Hv _ IHitems]; simpl; constructor; done.
Qed.

Lemma clean_for_json_builtin_serializable (obj : pyval) :
  serializable (clean_for_json obj) = serializable obj.
Proof.
  induction obj as [| | |f| |l IH|l IH|l IH|items IH] using pyval_ind; try done.
  - simpl. by destruct (float_is_nan f || float_is_inf f).
  - simpl. induction IH as [|x l Hx _ IHl]; simpl; [done|]. by rewrite Hx, IHl.
  - simpl. induction IH as [|[k v] items Hv _ IHitems]; simpl; [done|].
    simpl in Hv. by rewrite Hv, IHitems.
Qed.

(** An array is replaced by its [tolist()], which is not cleaned: a NaN in
    it is still there after one cleaning, and gone after a second one. *)
Example clean_for_json_array :
  clean_for_json_numpy (NList [NArray (NPy (PList [PFloat S754_nan]))])
  = NList [NPy (PList [PFloat S754_nan])]
  ∧ clean_for_json_numpy (NList [NPy (PList [PFloat S754_nan])])
    = NList [NPy (PList [PNone])].
Proof. split; reflexivity. Qed.

(** X3. On a value that holds no array where the cleaner looks, cleaning is
    idempotent: the cleaned value is left as it is. *)
Theorem clean_for_json_idempotent (obj : npval) :
  array_free obj = true →
  clean_for_json_numpy (clean_for_json_numpy obj) = clean_for_json_numpy obj.
Proof.
  induction obj as [v|l IH|l IH|l IH|items IH|tolist IH|z|float64 f] using npval_ind;
    simpl; intros Hfree; try done.
  - by rewrite clean_for_json_builtin_idempotent.
  - f_equal. apply map_fixed_Forall.
    apply (Forall_modus_ponens _ _ _ IH). by apply forallb_Forall.
  - f_equal. rewrite map_map. simpl. apply forallb_Forall in Hfree.
    induction IH as [|[k v] items Hv _ IHitems]; simpl; [done|].
    apply Forall_cons in Hfree as [Hk Hfree]. simpl in Hv, Hk.
    by rewrite Hv, IHitems.
  - by destruct (float_is_nan f || float_is_inf f) eqn:Hf; simpl; rewrite ?Hf.
Qed.

Lemma clean_for_json_idempotent_witness :
  clean_for_json_numpy
    (clean_for_json_numpy
       (NDict [("TE", NList [NFloating true S754_nan; NInteger 3]);
               ("shape", NTuple [NInteger 2; NInteger 2])]))
  = clean_for_json_numpy
      (NDict [("TE", NList [NFloating true S754_nan; NInteger 3]);
              ("shape", NTuple [NInteger 2; NInteger 2])]).
Proof.
  apply (clean_for_json_idempotent
           (NDict [("TE", NList [NFloating true S754_nan; NInteger 3]);
                   ("shape", NTuple [NInteger 2; NInteger 2])])).
  reflexivity.
Defined.



(** X5. Cleaning never turns a value [json.dumps] encodes into one it
    rejects.  On a value built from builtin objects only it neither removes
    nor introduces what [json.dumps] rejects: the cleaned value is encoded
    exactly when the value itself is, so a value holding a set still raises
    after cleaning. *)
Theorem clean_for_json_serializable `{FloatRepr} :
  (∀ obj : npval, encodable obj = true → encodable (clean_for_json_numpy obj) = true)
  ∧ (∀ obj : pyval,
       ∃ w, clean_for_json_numpy (NPy obj) = NPy w
            ∧ ((∃ s, json_dumps w = Ok s) ↔ (∃ s, json_dumps obj = Ok s))).
Proof.
  split.
  - intros obj.
    induction obj as [v|l IH|l IH|l IH|items IH|tolist IH|z|float64 f] using npval_ind;
      simpl; intros Hobj; try done.
    + by rewrite clean_for_json_builtin_serializable.
    + apply forallb_Forall. apply forallb_Forall in Hobj.
      induction IH as [|x l Hx _ IHl]; simpl; [constructor|].
      apply Forall_cons in Hobj as [Hobj1 Hobj].
      constructor; [by apply Hx|by apply IHl].
    + apply forallb_Forall. apply forallb_Forall in Hobj.
      induction IH as [|[k v] items Hv _ IHitems]; simpl; [constructor|].
      apply Forall_cons in Hobj as [Hobj1 Hobj].
      constructor; [by apply Hv|by apply IHitems].
    + by destruct (float_is_nan f || float_is_inf f).
  - intros obj. exists (clean_for_json obj). split; [done|].
    by rewrite !json_dumps_returns, clean_for_json_builtin_serializable.
Qed.

Lemma clean_for_json_serializable_witness :
  encodable (clean_for_json_numpy
               (NList [NFloating true S754_nan; NTuple [NPy (PInt 1)]])) = true.
Proof.
  apply (proj1 (clean_for_json_serializable (H := no_float_repr))
           (NList [NFloating true S754_nan; NTuple [NPy (PInt 1)]])).
  reflexivity.
Defined.

(** ** The choice of available fields *)

(** X6. When the choice of fields returns, the fields are not empty, each
    is a column of the session, and they are the reference fields that are
    columns, in their order, or else the basic fields that are columns.  It
    raises, a [ValueError], exactly when no reference field and no basic
    field is a column. *)
Theorem available_fields_spec (session_columns reference_fields : list string) :
  (∀ fields, available_fields session_columns reference_fields = Ok fields →
     fields ≠ []
     ∧ (∀ f, f ∈ fields → f ∈ session_columns)
     ∧ (fields = filter (λ f, f ∈ session_columns) reference_fields
        ∨ (filter (λ f, f ∈ session_columns) reference_fields = []
           ∧ fields = filter (λ f, f ∈ session_columns) basic_fields)))
  ∧ (∀ e, available_fields session_columns reference_fields = Raise e ↔
       e = ValueError
       ∧ ∀ f, f ∈ reference_fields ∨ f ∈ basic_fields → f ∉ session_columns).
Proof.
  unfold available_fields.
  assert (Hnil : ∀ l : list string,
            filter (λ f, f ∈ session_columns) l = [] ↔ ∀ f, f ∈ l → f ∉ session_columns).
  { intros l. split.
    - intros Hl f Hf Hcol.
      assert (Hin : f ∈ filter (λ f, f ∈ session_columns) l)
        by (by apply list_elem_of_filter).
      rewrite Hl in Hin. by apply elem_of_nil in Hin.
    - intros Hl. destruct (filter _ l) as [|f l'] eqn:Hfilter; [done|].
      assert (Hin : f ∈ filter (λ f, f ∈ session_columns) l)
        by (rewrite Hfilter; by left).
      apply list_elem_of_filter in Hin as [Hcol Hin]. by destruct (Hl f Hin). }
  destruct (filter _ reference_fields) as [|f fields] eqn:Hrefs.
  - destruct (filter _ basic_fields) as [|g gs] eqn:Hbasic.
    + split; [discriminate|]. intros e. split.
      * intros [= <-]. split; [done|].
        intros f [Hf|Hf]; [by apply (proj1 (Hnil reference_fields))
                          |by apply (proj1 (Hnil basic_fields))].
      * by intros [-> _].
    + split.
      * intros ? [= <-]. split; [done|]. split; [|by right].
        intros f Hf. rewrite <- Hbasic in Hf.
        by apply list_elem_of_filter in Hf as [? _].
      * intros e. split; [discriminate|]. intros [_ Hnone].
        assert (Hg : g ∈ filter (λ f, f ∈ session_columns) basic_fields)
          by (rewrite Hbasic; by left).
        apply list_elem_of_filter in Hg as [Hcol Hg]. destruct (Hnone g); auto.
  - split.
    + intros ? [= <-]. split; [done|]. split; [|by left].
      intros g Hg. rewrite <- Hrefs in Hg.
      by apply list_elem_of_filter in Hg as [? _].
    + intros e. split; [discriminate|]. intros [_ Hnone].
      assert (Hf : f ∈ filter (λ f, f ∈ session_columns) reference_fields)
        by (rewrite Hrefs; by left).
      apply list_elem_of_filter in Hf as [Hcol Hf]. destruct (Hnone f); auto.
Qed.

(** X7. When the reference fields name both "SeriesDescription" and
    "Manufacturer", as [DEFAULT_DICOM_FIELDS] does, the fallback can only
    ever give ["ProtocolName"]: if no reference field is a column, the
    result is that one field when it is a column and a [ValueError]
    otherwise. *)
Theorem available_fields_fallback (session_columns reference_fields : list string) :
  "SeriesDescription" ∈ reference_fields →
  "Manufacturer" ∈ reference_fields →
  (∀ f, f ∈ reference_fields → f ∉ session_columns) →
  available_fields session_columns reference_fields
  = if decide ("ProtocolName" ∈ session_columns)
    then Ok ["ProtocolName"] else Raise ValueError.
Proof.
  intros Hdesc Hman Hnone. unfold available_fields.
  assert (Hrefs : filter (λ f, f ∈ session_columns) reference_fields = []).
  { destruct (filter _ reference_fields) as [|f l] eqn:Hfilter; [done|].
    assert (Hin : f ∈ filter (λ f, f ∈ session_columns) reference_fields)
      by (rewrite Hfilter; by left).
    apply list_elem_of_filter in Hin as [Hcol Hin]. by destruct (Hnone f Hin). }
  rewrite Hrefs. unfold basic_fields.
  rewrite !filter_cons, filter_nil.
  rewrite (decide_False (P := "SeriesDescription" ∈ session_columns)) by auto.
  rewrite (decide_False (P := "Manufacturer" ∈ session_columns)) by auto.
  by destruct (decide ("ProtocolName" ∈ session_columns)).
Qed.

Lemma available_fields_fallback_witness :
  available_fields ["ProtocolName"; "PatientID"] DEFAULT_DICOM_FIELDS
  = if decide ("ProtocolName" ∈ ["ProtocolName"; "PatientID"])
    then Ok ["ProtocolName"] else Raise ValueError.
Proof.
  apply (available_fields_fallback ["ProtocolName"; "PatientID"] DEFAULT_DICOM_FIELDS).
  - apply list_elem_of_In. simpl. tauto.
  - apply list_elem_of_In. simpl. tauto.
  - intros f Hf Hcol.
    apply elem_of_cons in Hcol as [->|Hcol];
      [|apply elem_of_cons in Hcol as [->|Hcol]; [|by apply elem_of_nil in Hcol]];
      apply list_elem_of_In in Hf; simpl in Hf;
      repeat (destruct Hf as [Hf|Hf]; [discriminate Hf|]); exact Hf.
Defined.

(** ** The analyzer: order of the variable list, absent fields, NaN *)

Lemma list_remove_sublist (x : string) (l l' : list string) :
  list_remove x l = Ok l' → sublist l' l.
Proof.
  revert l'. induction l as [|y l IH]; intros l'; simpl; [discriminate|].
  destruct (decide (y = x)).
  - intros [= <-]. by apply sublist_cons.
  - destruct (list_remove x l) as [l''|e]; [|discriminate].
    intros [= <-]. by apply sublist_skip, IH.
Qed.

Lemma constant_loop_sublist `{FloatRepr} (rows : list (gmap string pyval))
    (row0 : gmap string pyval) (todo : list string) (cf : gmap string pyval)
    (vf : list string) (cf' : gmap string pyval) (vf' : list string) :
  constant_loop rows row0 todo cf vf = Ok (cf', vf') → sublist vf' vf.
Proof.
  revert cf vf. induction todo as [|g todo IH]; intros cf vf; simpl.
  - by intros [= _ <-].
  - destruct (all_equal g (dict_get row0 g) rows) as [[|]|e]; simpl; [| |discriminate].
    + destruct (list_remove g vf) as [vf1|e] eqn:Hrem; simpl; [|discriminate].
      intros Hloop. transitivity vf1; [by apply (IH _ _ Hloop)|].
      by apply (list_remove_sublist g).
    + apply IH.
Qed.

Lemma sublist_occurrences_le (x : string) (l' l : list string) :
  sublist l' l → occurrences x l' ≤ occurrences x l.
Proof.
  induction 1 as [|y l' l _ IH|y l' l _ IH]; [done| |].
  - destruct (decide (y = x)) as [->|Hne].
    + rewrite !count_occ_cons_eq by done. lia.
    + by rewrite !count_occ_cons_neq.
  - destruct (decide (y = x)) as [->|Hne].
    + rewrite count_occ_cons_eq by done. lia.
    + by rewrite count_occ_cons_neq.
Qed.

(** A sublist that keeps every occurrence of the elements it may hold is
    the filter. *)
Lemma sublist_filter (P : string → Prop) `{∀ x, Decision (P x)} (l' l : list string) :
  sublist l' l →
  (∀ x, P x → occurrences x l' = occurrences x l) →
  (∀ x, ¬ P x → x ∉ l') →
  l' = filter P l.
Proof.
  induction 1 as [|y l' l Hsub IH|y l' l Hsub IH]; intros Hkeep Hdrop; [done| |].
  - assert (Hy : P y).
    { destruct (decide (P y)) as [?|Hn]; [done|]. destruct (Hdrop y Hn). by left. }
    rewrite filter_cons, decide_True by done. f_equal. apply IH.
    + intros x Hx. specialize (Hkeep x Hx). destruct (decide (y = x)) as [->|Hne].
      * rewrite !count_occ_cons_eq in Hkeep by done. lia.
      * by rewrite !count_occ_cons_neq in Hkeep.
    + intros x Hx Hin. apply (Hdrop x Hx). by right.
  - assert (Hy : ¬ P y).
    { intros Hy. specialize (Hkeep y Hy). rewrite count_occ_cons_eq in Hkeep by done.
      pose proof (sublist_occurrences_le y l' l Hsub). lia. }
    rewrite filter_cons, decide_False by done. apply IH; [|done].
    intros x Hx. rewrite (Hkeep x Hx). apply count_occ_cons_neq. by intros ->.
Qed.

Lemma filter_outside_empty (l : list string) :
  filter (λ f, f ∉ dom (∅ : gmap string pyval)) l = l.
Proof.
  induction l as [|f l IH]; [done|].
  rewrite filter_cons, decide_True; [by rewrite IH|]. by rewrite dom_empty_L.
Qed.

(** X8. The variable list is the field list without the fields of the
    constant map, in the order of the field list. *)
Theorem variable_fields_in_order `{FloatRepr} (rows : list (gmap string pyval))
    (fields : list string) (cf : gmap string pyval) (vf : list string) :
  get_constant_fields rows fields = Ok (cf, vf) →
  vf = filter (λ f, f ∉ dom cf) fields.
Proof.
  intros Hget.
  destruct rows as [|row0 rest];
    [injection Hget as <- <-; by rewrite filter_outside_empty|].
  destruct fields as [|g fields]; [by injection Hget as <- <-|].
  change (constant_loop (row0 :: rest) row0 (g :: fields) ∅ (g :: fields) = Ok (cf, vf))
    in Hget.
  apply sublist_filter.
  - by apply (constant_loop_sublist _ _ _ _ _ _ _ Hget).
  - intros f Hf. rewrite not_elem_of_dom in Hf.
    destruct (constant_loop_spec _ _ _ _ _ _ _ Hget f) as (_ & Hconst & Hvar).
    destruct (decide (all_equal f (dict_get row0 f) (row0 :: rest) = Ok true)) as [Hv|Hv].
    + destruct (Hconst Hv) as [Hocc Hcf]. rewrite Hf in Hcf.
      destruct (decide (f ∈ g :: fields)) as [?|Hnin]; [done|].
      apply occurrences_zero in Hnin. lia.
    + by destruct (Hvar Hv).
  - intros f Hf. apply dec_stable in Hf. apply elem_of_dom in Hf as [v Hv].
    destruct (constant_loop_spec _ _ _ _ _ _ _ Hget f) as (_ & Hconst & Hvar).
    destruct (decide (all_equal f (dict_get row0 f) (row0 :: rest) = Ok true)) as [Hc|Hc].
    + destruct (Hconst Hc) as [Hocc _]. apply occurrences_zero. lia.
    + destruct (Hvar Hc) as [_ Hcf]. rewrite Hv, lookup_empty in Hcf. discriminate.
Qed.

Lemma variable_fields_in_order_witness :
  ∃ cf vf,
    get_constant_fields (H := no_float_repr)
      [ {[ "TR" := PInt 8; "TE" := PInt 5; "FA" := PInt 9 ]};
        {[ "TR" := PInt 8; "TE" := PInt 10; "FA" := PInt 12 ]} ]
      ["TE"; "TR"; "FA"; "TE"] = Ok (cf, vf)
    ∧ vf = filter (λ f, f ∉ dom cf) ["TE"; "TR"; "FA"; "TE"].
Proof.
  destruct (get_constant_fields_returns (H := no_float_repr)
              [ {[ "TR" := PInt 8; "TE" := PInt 5; "FA" := PInt 9 ]};
                {[ "TR" := PInt 8; "TE" := PInt 10; "FA" := PInt 12 ]} ]
              ["TE"; "TR"; "FA"; "TE"]) as (cf & vf & Hget).
  - intros row f Hrow Hf.
    repeat (apply elem_of_cons in Hrow as [->|Hrow]);
      [| |by apply elem_of_nil in Hrow];
      repeat (apply elem_of_cons in Hf as [->|Hf]);
      try (by apply elem_of_nil in Hf); reflexivity.
  - exists cf, vf. split; [exact Hget|].
    exact (variable_fields_in_order (H := no_float_repr) _ _ cf vf Hget).
Defined.

(** X9. A field that no row holds is constant, with [None] as its entry:
    [row.get(field, None)] reads a missing key as [None]. *)
Theorem absent_field_constant `{FloatRepr} (row0 : gmap string pyval)
    (rest : list (gmap string pyval)) (fields : list string) (field : string)
    (cf : gmap string pyval) (vf : list string) :
  field ∈ fields →
  (∀ row, row ∈ row0 :: rest → row !! field = None) →
  get_constant_fields (row0 :: rest) fields = Ok (cf, vf) →
  cf !! field = Some PNone ∧ field ∉ vf.
Proof.
  intros Hin Habsent Hget.
  assert (Hget0 : ∀ row, row ∈ row0 :: rest → dict_get row field = PNone).
  { intros row Hrow. unfold dict_get. by rewrite (Habsent row Hrow). }
  destruct (get_constant_fields_spec _ _ _ _ _ Hget field) as [Hconst _].
  rewrite (Hget0 row0) in Hconst by (by left). apply Hconst. split; [|done].
  apply all_equal_true, Forall_forall. intros row Hrow.
  rewrite (Hget0 row Hrow). by exists PNone, PNone.
Qed.

Lemma absent_field_constant_witness :
  ∃ cf vf,
    get_constant_fields (H := no_float_repr)
      [ {[ "TE" := PInt 5 ]}; {[ "TE" := PInt 10 ]} ] ["TE"; "TI"] = Ok (cf, vf)
    ∧ cf !! "TI" = Some PNone ∧ ("TI" ∉ vf).
Proof.
  destruct (get_constant_fields_returns (H := no_float_repr)
              [ {[ "TE" := PInt 5 ]}; {[ "TE" := PInt 10 ]} ] ["TE"; "TI"])
    as (cf & vf & Hget).
  - intros row f Hrow Hf.
    repeat (apply elem_of_cons in Hrow as [->|Hrow]);
      [| |by apply elem_of_nil in Hrow];
      repeat (apply elem_of_cons in Hf as [->|Hf]);
      try (by apply elem_of_nil in Hf); reflexivity.
  - exists cf, vf. split; [exact Hget|].
    apply (absent_field_constant (H := no_float_repr)
             {[ "TE" := PInt 5 ]} [ {[ "TE" := PInt 10 ]} ] ["TE"; "TI"] "TI" cf vf);
      [by right; left| |exact Hget].
    intros row Hrow.
    repeat (apply elem_of_cons in Hrow as [->|Hrow]);
      [| |by apply elem_of_nil in Hrow]; reflexivity.
Defined.

(** X10. A field whose value in the first row is NaN is never constant, even
    when every row holds NaN: NaN is not [==] to itself. *)
Theorem nan_field_variable `{FloatRepr} (row0 : gmap string pyval)
    (rest : list (gmap string pyval)) (fields : list string) (field : string)
    (cf : gmap string pyval) (vf : list string) :
  field ∈ fields →
  row0 !! field = Some (PFloat S754_nan) →
  get_constant_fields (row0 :: rest) fields = Ok (cf, vf) →
  cf !! field = None ∧ field ∈ vf.
Proof.
  intros Hin Hnan Hget.
  destruct (get_constant_fields_spec _ _ _ _ _ Hget field) as [_ Hvar].
  destruct Hvar as [Hcf Hvf]; [|split; [done|by apply Hvf]].
  intros [Hall _]. apply all_equal_true in Hall.
  apply Forall_cons in Hall as [(a & b & Ha & Hb & Hab) _].
  unfold dict_get in Ha, Hb. rewrite Hnan in Ha, Hb. simpl in Ha, Hb.
  injection Ha as <-. injection Hb as <-. discriminate.
Qed.

Lemma nan_field_variable_witness :
  ∃ cf vf,
    get_constant_fields (H := no_float_repr)
      [ {[ "TI" := PFloat S754_nan ]}; {[ "TI" := PFloat S754_nan ]} ] ["TI"]
    = Ok (cf, vf)
    ∧ cf !! "TI" = None ∧ ("TI" ∈ vf).
Proof.
  destruct (get_constant_fields_returns (H := no_float_repr)
              [ {[ "TI" := PFloat S754_nan ]}; {[ "TI" := PFloat S754_nan ]} ] ["TI"])
    as (cf & vf & Hget).
  - intros row f Hrow Hf.
    repeat (apply elem_of_cons in Hrow as [->|Hrow]);
      [| |by apply elem_of_nil in Hrow];
      repeat (apply elem_of_cons in Hf as [->|Hf]);
      try (by apply elem_of_nil in Hf); reflexivity.
  - exists cf, vf. split; [exact Hget|].
    apply (nan_field_variable (H := no_float_repr)
             {[ "TI" := PFloat S754_nan ]} [ {[ "TI" := PFloat S754_nan ]} ] ["TI"]
             "TI" cf vf); [by left|reflexivity|exact Hget].
Defined.

(** ** Stripping column names *)

Lemma append_cons (c : ascii) (s t : string) : String c s +:+ t = String c (s +:+ t).
Proof. reflexivity. Qed.

Lemma append_assoc (s t u : string) : (s +:+ t) +:+ u = s +:+ (t +:+ u).
Proof. induction s as [|c s IH]; [done|]. by rewrite !append_cons, IH. Qed.

Lemma append_empty_r (s : string) : s +:+ "" = s.
Proof. induction s as [|c s IH]; [done|]. by rewrite append_cons, IH. Qed.

Lemma rev_app_append (s acc : string) : String.rev_app s acc = String.rev s +:+ acc.
Proof.
  revert acc. induction s as [|c s IH]; intros acc; [done|].
  unfold String.rev. simpl. rewrite (IH (String c acc)), (IH (String c "")).
  by rewrite append_assoc.
Qed.

Lemma rev_cons (c : ascii) (s : string) :
  String.rev (String c s) = String.rev s +:+ String c "".
Proof. unfold String.rev at 1. simpl. apply rev_app_append. Qed.

Lemma rev_snoc (c : ascii) (s : string) :
  String.rev (s +:+ String c "") = String c (String.rev s).
Proof.
  induction s as [|d s IH]; [done|].
  by rewrite append_cons, !rev_cons, IH, append_cons.
Qed.

Lemma rev_involutive (s : string) : String.rev (String.rev s) = s.
Proof.
  induction s as [|c s IH]; [done|]. by rewrite rev_cons, rev_snoc, IH.
Qed.

Lemma lstrip_starts_clean (s : string) : starts_clean (lstrip s) = true.
Proof.
  induction s as [|c s IH]; [done|]. simpl.
  destruct (is_space c) eqn:Hc; [done|]. simpl. by rewrite Hc.
Qed.

Lemma lstrip_clean (s : string) : starts_clean s = true → lstrip s = s.
Proof.
  destruct s as [|c s]; [done|]. simpl. by intros ->%negb_true_iff.
Qed.

Lemma lstrip_snoc (c : ascii) (s : string) :
  is_space c = false → ∃ s', lstrip (s +:+ String c "") = s' +:+ String c "".
Proof.
  intros Hc. induction s as [|d s [s' IH]].
  - exists "". simpl. by rewrite Hc.
  - rewrite append_cons. simpl. destruct (is_space d).
    + by exists s'.
    + by exists (String d s).
Qed.

(** [strip] finishes the job: a stripped name is left as it is. *)
Lemma strip_idempotent (s : string) : strip (strip s) = strip s.
Proof.
  unfold strip.
  assert (Hclean : starts_clean (String.rev (lstrip (String.rev (lstrip s)))) = true).
  { pose proof (lstrip_starts_clean s) as Hs.
    destruct (lstrip s) as [|c t]; [done|].
    simpl in Hs. apply negb_true_iff in Hs.
    rewrite rev_cons. destruct (lstrip_snoc c (String.rev t) Hs) as [t' ->].
    rewrite rev_snoc. simpl. by rewrite Hs. }
  rewrite (lstrip_clean _ Hclean), rev_involutive.
  by rewrite (lstrip_clean _ (lstrip_starts_clean _)).
Qed.

(** ** The row deduplicator: errors, record keys, size *)

Lemma column_index_lookup (cols : list string) (c : string) (j : nat) :
  column_index cols c = Some j → cols !! j = Some c.
Proof.
  unfold column_index. destruct (list_find _ cols) as [[i x]|] eqn:Hfind; [|done].
  intros [= <-]. apply list_find_Some in Hfind as (Hi & -> & _). exact Hi.
Qed.

Lemma column_index_None (cols : list string) (c : string) :
  column_index cols c = None ↔ c ∉ cols.
Proof.
  unfold column_index. destruct (list_find _ cols) as [[i x]|] eqn:Hfind; simpl.
  - apply list_find_Some in Hfind as (Hi & -> & _).
    split; [discriminate|]. intros []. by apply list_elem_of_lookup_2 in Hi.
  - apply list_find_None in Hfind. rewrite Forall_forall in Hfind.
    split; [|done]. intros _ Hin. by apply (Hfind c).
Qed.

Lemma column_positions_elem_of (cols names : list string) (ps : list nat) :
  column_positions cols names = Ok ps → ∀ c, c ∈ names → c ∈ cols.
Proof.
  unfold column_positions. intros Hps%sequence_map_Ok c Hc.
  apply list_elem_of_lookup_1 in Hc as [i Hi].
  destruct (Forall2_lookup_l _ _ _ _ _ Hps Hi) as (p & _ & Hp).
  destruct (column_index cols c) as [j|] eqn:Hj; [|discriminate].
  apply column_index_lookup in Hj. by apply list_elem_of_lookup_2 in Hj.
Qed.

Lemma existsb_missing (cols fields : list string) :
  existsb (λ field, bool_decide (field ∉ cols)) fields = true
  ↔ ∃ field, field ∈ fields ∧ field ∉ cols.
Proof.
  rewrite existsb_exists. split.
  - intros (f & Hf%list_elem_of_In & Hcol%bool_decide_eq_true). eauto.
  - intros (f & Hf & Hcol). exists f. split; [by apply list_elem_of_In|].
    by apply bool_decide_eq_true.
Qed.

(** What a returning call went through. *)
Lemma fetch_unique_rows_Ok `{FloatRepr} `{Pandas} (df : DataFrame) (acquisition : string)
    (selected_fields : list string) (out : list (gmap string pyval)) :
  selected_fields ≠ [] →
  fetch_unique_rows df acquisition selected_fields = Ok out →
  ∃ protocol normalized deduplicated sorted,
    column_index (columns df) "ProtocolName" = Some protocol
    ∧ normalize_columns (map strip selected_fields) (map strip selected_fields)
        (map (λ r, map (cell (columns df) r) selected_fields)
           (filter (λ r, py_eq (default PNone (r !! protocol)) (PStr acquisition) = true)
              (records df))) = Ok normalized
    ∧ (normalized = [] ∧ deduplicated = []
       ∨ normalized ≠ []
         ∧ ∃ subset, column_positions (map strip selected_fields) selected_fields = Ok subset
                     ∧ deduplicated = drop_duplicates subset normalized)
    ∧ (sorted = deduplicated ∨ ∃ by_, sort_values by_ deduplicated = Ok sorted)
    ∧ out = map (to_record (map strip selected_fields)) sorted.
Proof.
  intros Hsel Hfetch. unfold fetch_unique_rows in Hfetch.
  rewrite bool_decide_eq_false_2 in Hfetch by done.
  destruct (existsb _ selected_fields); [discriminate|].
  apply bind_Ok in Hfetch as (protocol & Hprotocol & Hfetch).
  apply bind_Ok in Hfetch as (normalized & Hnorm & Hfetch).
  apply bind_Ok in Hfetch as (deduplicated & Hdedup & Hfetch).
  apply bind_Ok in Hfetch as (sorted & Hsorted & Hfetch).
  injection Hfetch as <-. exists protocol, normalized, deduplicated, sorted.
  destruct (column_index (columns df) "ProtocolName"); [|discriminate].
  injection Hprotocol as ->. repeat split; try done.
  - case_bool_decide as Hempty.
    + left. by injection Hdedup as <-.
    + right. split; [done|].
      apply bind_Ok in Hdedup as (subset & Hsubset & [= <-]). by exists subset.
  - destruct (existsb _ selected_fields); [right|left; by injection Hsorted].
    apply bind_Ok in Hsorted as (by_ & _ & Hsorted). by exists by_.
Qed.

(** A field with white space at either end is not among the stripped
    names, and looking it up there is a [KeyError]. *)
Lemma padded_not_stripped (fields : list string) (field : string) :
  strip field ≠ field → field ∉ map strip fields.
Proof.
  intros Hpadded Hin. apply (list_elem_of_fmap_1 strip) in Hin as (g & -> & _).
  apply Hpadded, strip_idempotent.
Qed.

Lemma stripped_elem_of (fields : list string) (field : string) :
  field ∈ fields → (field ∈ map strip fields ↔ strip field = field).
Proof.
  intros Hin. split.
  - intros Hcol. destruct (decide (strip field = field)) as [|Hpadded]; [done|].
    by destruct (padded_not_stripped fields field Hpadded).
  - intros <-. by apply (list_elem_of_fmap_2 strip).
Qed.

Lemma column_positions_missing (cols names : list string) (c : string) :
  c ∈ names → c ∉ cols → column_positions cols names = Raise KeyError.
Proof.
  intros Hin Hcol. unfold column_positions.
  destruct (sequence _) as [ps|e] eqn:Hseq.
  - destruct Hcol. by apply (column_positions_elem_of cols names ps).
  - apply sequence_Raise in Hseq as (m & Hm & ->).
    apply (list_elem_of_fmap_1 _ names) in Hm as (c' & Hc' & _).
    destruct (column_index cols c'); [discriminate|]. by injection Hc' as ->.
Qed.

Lemma all_fields_stripped (fields : list string) :
  (∀ field, field ∈ fields → strip field = field) → map strip fields = fields.
Proof.
  intros Hall. rewrite <- (map_id fields) at 2. apply map_ext_in.
  intros f Hf%list_elem_of_In. by apply Hall.
Qed.

(** X11. A single selected field that is not a column is enough for the
    [ValueError]; and when the fields are all columns but the table has no
    "ProtocolName" column, the call raises [KeyError]. *)
Theorem fetch_unique_rows_missing `{FloatRepr} `{Pandas} (df : DataFrame)
    (acquisition : string) (selected_fields : list string) :
  ((∃ field, field ∈ selected_fields ∧ field ∉ columns df) →
   fetch_unique_rows df acquisition selected_fields = Raise ValueError)
  ∧ (selected_fields ≠ [] →
     (∀ field, field ∈ selected_fields → field ∈ columns df) →
     "ProtocolName" ∉ columns df →
     fetch_unique_rows df acquisition selected_fields = Raise KeyError).
Proof.
  unfold fetch_unique_rows. split.
  - intros Hmissing. rewrite bool_decide_eq_false_2.
    + apply existsb_missing in Hmissing. by rewrite Hmissing.
    + intros ->. destruct Hmissing as (f & Hf & _). by apply elem_of_nil in Hf.
  - intros Hsel Hall Hprotocol. rewrite bool_decide_eq_false_2 by done.
    destruct (existsb _ selected_fields) eqn:Hmissing.
    + apply existsb_missing in Hmissing as (f & Hf & Hcol). by destruct (Hcol (Hall f Hf)).
    + apply column_index_None in Hprotocol. by rewrite Hprotocol.
Qed.

Lemma fetch_unique_rows_missing_witness :
  fetch_unique_rows (H := no_float_repr) (H0 := reference_pandas)
    example_table "T1" ["EchoTime"; "FlipAngle"] = Raise ValueError
  ∧ fetch_unique_rows (H := no_float_repr) (H0 := reference_pandas)
      {| columns := ["SeriesDescription"; "EchoTime"];
         records := [[PStr "T1"; PInt 5]] |} "T1" ["EchoTime"] = Raise KeyError.
Proof.
  split.
  - apply (fetch_unique_rows_missing (H := no_float_repr) (H0 := reference_pandas)).
    exists "FlipAngle". split; [by right; left|].
    intros Hin%list_elem_of_In. simpl in Hin.
    repeat (destruct Hin as [Hin|Hin]; [discriminate Hin|]). exact Hin.
  - apply (fetch_unique_rows_missing (H := no_float_repr) (H0 := reference_pandas));
      [discriminate| |].
    + intros f Hf%list_elem_of_singleton. subst. by right; left.
    + intros Hin%list_elem_of_In. simpl in Hin.
      repeat (destruct Hin as [Hin|Hin]; [discriminate Hin|]). exact Hin.
Defined.

Lemma normalize_columns_lengths `{FloatRepr} (cols todo : list string)
    (rows rows' : list (list pyval)) :
  normalize_columns cols todo rows = Ok rows' →
  Forall2 (λ r r', length r' = length r) rows rows'.
Proof.
  revert rows. induction todo as [|c todo IH]; intros rows; simpl.
  - intros [= <-]. by apply Forall_Forall2_diag, Forall_forall.
  - destruct (column_index cols c) as [j|]; [|discriminate].
    destruct (apply_column make_hashable j rows) as [rows1|e] eqn:Hcol;
      simpl; [|discriminate].
    intros Hrest%IH. apply sequence_map_Ok in Hcol.
    clear IH. revert rows' Hrest.
    induction Hcol as [|r r1 rows rows1 Hr _ IHrows]; intros rows' Hrest.
    + inversion Hrest. constructor.
    + inversion Hrest as [|? r' ? rows'' Hr' Hrest']; subst.
      constructor; [|by apply IHrows].
      apply apply_at_spec in Hr as (Hlen & _). congruence.
Qed.

Lemma filter_none {A : Type} (P : A → Prop) `{∀ x, Decision (P x)} (l : list A) :
  (∀ x, x ∈ l → ¬ P x) → filter P l = [].
Proof.
  induction l as [|x l IH]; intros Hnone; [done|].
  rewrite filter_cons_False by (apply Hnone; by left).
  apply IH. intros y Hy. apply Hnone. by right.
Qed.

Lemma normalize_columns_no_rows `{FloatRepr} (cols todo : list string) :
  (∀ c, c ∈ todo → c ∈ cols) → normalize_columns cols todo [] = Ok [].
Proof.
  induction todo as [|c todo IH]; intros Hin; simpl; [done|].
  destruct (column_index cols c) as [j|] eqn:Hj.
  - simpl. apply IH. intros c' Hc'. apply Hin. by right.
  - apply column_index_None in Hj. destruct Hj. apply Hin. by left.
Qed.



Lemma dom_foldl_insert (cvs : list (string * pyval)) (d : gmap string pyval) :
  dom (foldl (λ d cv, <[cv.1 := cv.2]> d) d cvs) = dom d ∪ list_to_set cvs.*1.
Proof.
  revert d. induction cvs as [|[c v] cvs IH]; intros d; simpl.
  - by rewrite union_empty_r_L.
  - rewrite IH, dom_insert_L. apply set_eq. intros x.
    rewrite !elem_of_union, elem_of_singleton. tauto.
Qed.

Lemma dom_to_record (cols : list string) (r : list pyval) :
  length cols ≤ length r → dom (to_record cols r) = list_to_set cols.
Proof.
  intros Hlen. unfold to_record.
  by rewrite dom_foldl_insert, dom_empty_L, union_empty_l_L, fst_zip.
Qed.

Section DeduplicatorResult.
Context `{FloatRepr} `{Pandas}.
Hypothesis contract : pandas_contract.

Lemma fetch_unique_rows_rows (df : DataFrame) (acquisition : string)
    (selected_fields : list string) (out : list (gmap string pyval)) :
  selected_fields ≠ [] →
  fetch_unique_rows df acquisition selected_fields = Ok out →
  ∃ protocol normalized sorted,
    column_index (columns df) "ProtocolName" = Some protocol
    ∧ normalize_columns (map strip selected_fields) (map strip selected_fields)
        (map (λ r, map (cell (columns df) r) selected_fields)
           (filter (λ r, py_eq (default PNone (r !! protocol)) (PStr acquisition) = true)
              (records df))) = Ok normalized
    ∧ (∀ r', r' ∈ sorted → r' ∈ normalized)
    ∧ length sorted ≤ length normalized
    ∧ (sorted ≠ [] → map strip selected_fields = selected_fields)
    ∧ out = map (to_record (map strip selected_fields)) sorted.
Proof.
  intros Hsel Hfetch. destruct contract as [Hsublist Hperm].
  destruct (fetch_unique_rows_Ok _ _ _ _ Hsel Hfetch)
    as (protocol & normalized & deduplicated & sorted
        & Hprotocol & Hnorm & Hdedup & Hsorted & ->).
  exists protocol, normalized, sorted.
  assert (Hfrom : sorted ≡ₚ deduplicated).
  { destruct Hsorted as [->|[by_ Hsorted]]; [done|exact (Hperm _ _ _ Hsorted)]. }
  split; [done|]. split; [done|].
  destruct Hdedup as [[-> ->]|(Hrows & subset & Hsubset & ->)].
  - apply Permutation_nil_r in Hfrom. subst sorted.
    split; [by intros r' Hr'%elem_of_nil|]. by repeat split.
  - split; [|split; [|split; [|done]]].
    + intros r' Hr'. rewrite Hfrom in Hr'.
      by apply (elem_of_sublist _ _ _ Hr'), Hsublist.
    + rewrite Hfrom. apply sublist_length, Hsublist.
    + intros _. apply all_fields_stripped. intros f Hf.
      apply (stripped_elem_of selected_fields); [done|].
      by apply (column_positions_elem_of _ _ _ Hsubset).
Qed.
End DeduplicatorResult.

(** X13. Each record of a returning call has the selected fields, under
    their own names, as its keys and no other key: "ProtocolName" is in a
    record only when it was selected. *)
Theorem fetch_unique_rows_keys `{FloatRepr} `{Pandas} (df : DataFrame)
    (acquisition : string) (selected_fields : list string)
    (out : list (gmap string pyval)) :
  pandas_contract →
  fetch_unique_rows df acquisition selected_fields = Ok out →
  ∀ rec, rec ∈ out → dom rec = (list_to_set selected_fields : gset string).
Proof.
  intros Hcontract Hfetch rec Hrec.
  destruct (decide (selected_fields = [])) as [->|Hsel].
  { injection Hfetch as <-. by apply elem_of_nil in Hrec. }
  destruct (fetch_unique_rows_rows Hcontract _ _ _ _ Hsel Hfetch)
    as (protocol & normalized & sorted & _ & Hlen & Hin & _ & Hstrip & ->).
  apply list_elem_of_fmap in Hrec as (r' & -> & Hr').
  rewrite Hstrip in * by (intros ->; by apply elem_of_nil in Hr').
  apply normalize_columns_lengths in Hlen.
  apply Hin, list_elem_of_lookup_1 in Hr' as [i Hi].
  destruct (Forall2_lookup_r _ _ _ _ _ Hlen Hi) as (r0 & Hr0 & Hlen0).
  apply list_elem_of_lookup_2, list_elem_of_fmap in Hr0 as (r & -> & _).
  apply dom_to_record. rewrite Hlen0, length_map. done.
Qed.

Lemma fetch_unique_rows_keys_witness :
  ∃ out,
    fetch_unique_rows (H := no_float_repr) (H0 := reference_pandas)
      example_table "T1" ["ImageType"; "EchoTime"] = Ok out
    ∧ ∀ rec, rec ∈ out →
        dom rec = (list_to_set ["ImageType"; "EchoTime"] : gset string).
Proof.
  destruct (fetch_unique_rows (H := no_float_repr) (H0 := reference_pandas)
              example_table "T1" ["ImageType"; "EchoTime"]) as [out|e] eqn:Hfetch.
  - exists out. split; [reflexivity|].
    apply (fetch_unique_rows_keys (H := no_float_repr) (H0 := reference_pandas)
             example_table "T1" ["ImageType"; "EchoTime"] out); [|exact Hfetch].
    split; [intros subset rows; apply keep_first_sublist|apply sort_rows_Permutation].
  - assert (Hok : is_Ok (fetch_unique_rows (H := no_float_repr) (H0 := reference_pandas)
                           example_table "T1" ["ImageType"; "EchoTime"]) = true)
      by (vm_compute; reflexivity).
    rewrite Hfetch in Hok. discriminate.
Defined.

(** X14. A returning call gives at most one record per row of the
    acquisition, and none for an acquisition without rows. *)
Theorem fetch_unique_rows_size `{FloatRepr} `{Pandas} (df : DataFrame)
    (acquisition : string) (selected_fields : list string)
    (out : list (gmap string pyval)) :
  pandas_contract →
  fetch_unique_rows df acquisition selected_fields = Ok out →
  length out
  ≤ length (filter (λ r, py_eq (cell (columns df) r "ProtocolName")
                           (PStr acquisition) = true) (records df)).
Proof.
  intros Hcontract Hfetch.
  destruct (decide (selected_fields = [])) as [->|Hsel].
  { injection Hfetch as <-. simpl. lia. }
  destruct (fetch_unique_rows_rows Hcontract _ _ _ _ Hsel Hfetch)
    as (protocol & normalized & sorted & Hprotocol & Hlen & _ & Hle & _ & ->).
  apply normalize_columns_lengths, Forall2_length in Hlen. rewrite !length_map in *.
  assert (Hcell : ∀ r, cell (columns df) r "ProtocolName" = default PNone (r !! protocol)).
  { intros r. unfold cell. by rewrite Hprotocol. }
  rewrite (list_filter_iff _
             (λ r, py_eq (default PNone (r !! protocol)) (PStr acquisition) = true)).
  - lia.
  - intros r. by rewrite Hcell.
Qed.

Lemma fetch_unique_rows_size_witness :
  ∃ out,
    fetch_unique_rows (H := no_float_repr) (H0 := reference_pandas)
      example_table "T3" ["ImageType"; "EchoTime"] = Ok out
    ∧ length out
      ≤ length (filter (λ r, py_eq (cell (columns example_table) r "ProtocolName")
                               (PStr "T3") = true) (records example_table)).
Proof.
  destruct (fetch_unique_rows (H := no_float_repr) (H0 := reference_pandas)
              example_table "T3" ["ImageType"; "EchoTime"]) as [out|e] eqn:Hfetch.
  - exists out. split; [reflexivity|].
    apply (fetch_unique_rows_size (H := no_float_repr) (H0 := reference_pandas)
             example_table "T3" ["ImageType"; "EchoTime"] out); [|exact Hfetch].
    split; [intros subset rows; apply keep_first_sublist|apply sort_rows_Permutation].
  - assert (Hok : is_Ok (fetch_unique_rows (H := no_float_repr) (H0 := reference_pandas)
                           example_table "T3" ["ImageType"; "EchoTime"]) = true)
      by (vm_compute; reflexivity).
    rewrite Hfetch in Hok. discriminate.
Defined.

(** ** The sorted deduplicator *)

Lemma to_record_absent (cols : list string) (r : list pyval) (c : string) :
  c ∉ cols → to_record cols r !! c = None.
Proof.
  intros Hc. unfold to_record. rewrite to_record_other; [apply lookup_empty|].
  intros ([c' v] & -> & Hin%elem_of_zip_l)%list_elem_of_fmap. by apply Hc.
Qed.

(** What a returning call went through. *)
Lemma fetch_sorted_unique_rows_Ok `{Pandas} (df : DataFrame) (acquisition : string)
    (selected_fields : list string) (out : list (gmap string pyval)) :
  fetch_sorted_unique_rows df acquisition selected_fields = Ok out →
  ∃ protocol by_ df_filtered,
    column_index (columns df) "ProtocolName" = Some protocol
    ∧ (∀ field, field ∈ selected_fields → field ∈ columns df)
    ∧ sort_values by_
        (drop_duplicates (seq 0 (length selected_fields))
           (map (λ r, map (cell (columns df) r) selected_fields)
              (filter (λ r, py_eq (default PNone (r !! protocol)) (PStr acquisition) = true)
                 (records df)))) = Ok df_filtered
    ∧ ((1 < length df_filtered ∧ ("Series" ∉ selected_fields)
        ∧ out = imap (λ i r, to_record ("Series" :: selected_fields)
                               (PInt (Z.of_nat (S i)) :: r)) df_filtered)
       ∨ (length df_filtered ≤ 1
          ∧ out = map (to_record selected_fields) df_filtered)).
Proof.
  unfold fetch_sorted_unique_rows. intros Hfetch.
  apply bind_Ok in Hfetch as (protocol & Hprotocol & Hfetch).
  destruct (existsb _ selected_fields) eqn:Hmissing; [discriminate|].
  destruct (negb _); [discriminate|].
  apply bind_Ok in Hfetch as (by_ & _ & Hfetch).
  apply bind_Ok in Hfetch as (df_filtered & Hsorted & Hfetch).
  exists protocol, by_, df_filtered.
  destruct (column_index (columns df) "ProtocolName"); [|discriminate].
  injection Hprotocol as ->. split; [done|]. split; [|split; [done|]].
  - intros f Hf. destruct (decide (f ∈ columns df)) as [|Hcol]; [done|].
    assert (existsb (λ field, bool_decide (field ∉ columns df)) selected_fields = true)
      by (apply existsb_missing; eauto). congruence.
  - destruct (1 <? length df_filtered) eqn:Hlen.
    + apply Nat.ltb_lt in Hlen. case_bool_decide; [discriminate|].
      left. by injection Hfetch as <-.
    + apply Nat.ltb_ge in Hlen. right. by injection Hfetch as <-.
Qed.

(** X15. When more than one distinct row remains, the records are numbered
    under "Series" with 1, 2, ... in the order they are returned, and
    "Series" was not among the selected fields; a result of at most one
    record carries no such number. *)
Theorem fetch_sorted_unique_rows_series `{Pandas} (df : DataFrame)
    (acquisition : string) (selected_fields : list string)
    (out : list (gmap string pyval)) :
  NoDup selected_fields →
  fetch_sorted_unique_rows df acquisition selected_fields = Ok out →
  (1 < length out →
   ("Series" ∉ selected_fields)
   ∧ ∀ i rec, out !! i = Some rec → rec !! "Series" = Some (PInt (Z.of_nat (S i))))
  ∧ (length out ≤ 1 → "Series" ∉ selected_fields →
     ∀ rec, rec ∈ out → rec !! "Series" = None).
Proof.
  intros Hnd Hfetch.
  destruct (fetch_sorted_unique_rows_Ok _ _ _ _ Hfetch)
    as (protocol & by_ & df_filtered & _ & _ & _ & Hout).
  destruct Hout as [(Hlen & Hseries & ->)|(Hlen & ->)].
  - split.
    + intros _. split; [done|]. intros i rec Hi.
      rewrite list_lookup_imap in Hi.
      destruct (df_filtered !! i) as [r|]; [|discriminate]. injection Hi as <-.
      apply (to_record_lookup _ _ 0); [|done..]. by apply NoDup_cons.
    + rewrite length_imap. lia.
  - split.
    + rewrite length_map. lia.
    + intros _ Hseries rec (r & -> & _)%list_elem_of_fmap.
      by apply to_record_absent.
Qed.

Lemma fetch_sorted_unique_rows_series_witness :
  ∃ out,
    fetch_sorted_unique_rows (H := reference_pandas) example_table "T1" ["EchoTime"]
    = Ok out
    ∧ length out = 2
    ∧ ∀ i rec, out !! i = Some rec → rec !! "Series" = Some (PInt (Z.of_nat (S i))).
Proof.
  destruct (fetch_sorted_unique_rows (H := reference_pandas) example_table "T1"
              ["EchoTime"]) as [out|e] eqn:Hfetch.
  - exists out. split; [reflexivity|].
    assert (Hlen : match fetch_sorted_unique_rows (H := reference_pandas)
                         example_table "T1" ["EchoTime"] with
                   | Ok l => length l
                   | Raise _ => 0
                   end = 2) by (vm_compute; reflexivity).
    rewrite Hfetch in Hlen. split; [exact Hlen|].
    apply (fetch_sorted_unique_rows_series (H := reference_pandas) example_table "T1"
             ["EchoTime"] out (NoDup_singleton _) Hfetch). lia.
  - assert (Hok : is_Ok (fetch_sorted_unique_rows (H := reference_pandas)
                           example_table "T1" ["EchoTime"]) = true)
      by (vm_compute; reflexivity).
    rewrite Hfetch in Hok. discriminate.
Defined.

(** X16. The sorted deduplicator returns the cells as they are in the
    table: every record comes from a row of the acquisition and holds, under
    each selected field, that row's raw cell. *)
Theorem fetch_sorted_unique_rows_raw `{Pandas} (df : DataFrame)
    (acquisition : string) (selected_fields : list string)
    (out : list (gmap string pyval)) :
  pandas_contract →
  NoDup selected_fields →
  fetch_sorted_unique_rows df acquisition selected_fields = Ok out →
  ∀ rec, rec ∈ out →
    ∃ r, r ∈ records df
      ∧ py_eq (cell (columns df) r "ProtocolName") (PStr acquisition) = true
      ∧ ∀ field, field ∈ selected_fields →
          rec !! field = Some (cell (columns df) r field).
Proof.
  intros [Hsublist Hperm] Hnd Hfetch rec Hrec.
  destruct (fetch_sorted_unique_rows_Ok _ _ _ _ Hfetch)
    as (protocol & by_ & df_filtered & Hprotocol & _ & Hsorted & Hout).
  assert (Hrow : ∃ r', r' ∈ df_filtered
            ∧ (rec = to_record selected_fields r'
               ∨ (("Series" ∉ selected_fields)
                  ∧ ∃ n, rec = to_record ("Series" :: selected_fields) (PInt n :: r')))).
  { destruct Hout as [(_ & Hseries & ->)|(_ & ->)].
    - apply elem_of_lookup_imap_1 in Hrec as (i & r' & -> & Hi).
      exists r'. split; [by apply list_elem_of_lookup_2 in Hi|]. right. eauto.
    - apply list_elem_of_fmap in Hrec as (r' & -> & Hr'). exists r'. auto. }
  destruct Hrow as (r' & Hr' & Hrec').
  apply Hperm in Hsorted. rewrite Hsorted in Hr'.
  apply (elem_of_sublist _ _ _ Hr') in Hsublist.
  apply list_elem_of_fmap in Hsublist as (r & -> & Hr).
  apply list_elem_of_filter in Hr as [Hacq Hr].
  exists r. split; [done|]. split.
  { unfold cell. by rewrite Hprotocol. }
  intros field Hfield. apply list_elem_of_lookup_1 in Hfield as [j Hj].
  assert (Hcell : map (cell (columns df) r) selected_fields !! j
                  = Some (cell (columns df) r field)).
  { change (map (cell (columns df) r) selected_fields)
      with (cell (columns df) r <$> selected_fields).
    by rewrite list_lookup_fmap, Hj. }
  destruct Hrec' as [->|(Hseries & n & ->)].
  - by apply (to_record_lookup _ _ j).
  - apply (to_record_lookup _ _ (S j)); [by apply NoDup_cons|done..].
Qed.

Lemma fetch_sorted_unique_rows_raw_witness :
  ∃ out,
    fetch_sorted_unique_rows (H := reference_pandas) example_table "T1" ["EchoTime"]
    = Ok out
    ∧ ∀ rec, rec ∈ out →
        ∃ r, r ∈ records example_table
          ∧ py_eq (cell (columns example_table) r "ProtocolName") (PStr "T1") = true
          ∧ ∀ field, field ∈ ["EchoTime"] →
              rec !! field = Some (cell (columns example_table) r field).
Proof.
  destruct (fetch_sorted_unique_rows (H := reference_pandas) example_table "T1"
              ["EchoTime"]) as [out|e] eqn:Hfetch.
  - exists out. split; [reflexivity|].
    apply (fetch_sorted_unique_rows_raw (H := reference_pandas) example_table "T1"
             ["EchoTime"] out); [|apply NoDup_singleton|exact Hfetch].
    split; [intros subset rows; apply keep_first_sublist|apply sort_rows_Permutation].
  - assert (Hok : is_Ok (fetch_sorted_unique_rows (H := reference_pandas)
                           example_table "T1" ["EchoTime"]) = true)
      by (vm_compute; reflexivity).
    rewrite Hfetch in Hok. discriminate.
Defined.

(** X17. The sorted deduplicator has no guard of its own: a table without
    a "ProtocolName" column, or a selected field that is not a column, makes
    it raise [KeyError], also for an empty selection. *)
Theorem fetch_sorted_unique_rows_missing `{Pandas} (df : DataFrame)
    (acquisition : string) (selected_fields : list string) :
  "ProtocolName" ∉ columns df
  ∨ (∃ field, field ∈ selected_fields ∧ field ∉ columns df) →
  fetch_sorted_unique_rows df acquisition selected_fields = Raise KeyError.
Proof.
  intros Hmissing. unfold fetch_sorted_unique_rows.
  destruct (column_index (columns df) "ProtocolName") as [protocol|] eqn:Hprotocol;
    [|done].
  destruct Hmissing as [Hcol|Hfield].
  - apply column_index_None in Hcol. congruence.
  - apply existsb_missing in Hfield. simpl. by rewrite Hfield.
Qed.

Lemma fetch_sorted_unique_rows_missing_witness :
  fetch_sorted_unique_rows (H := reference_pandas) example_table "T1"
    ["EchoTime"; "FlipAngle"] = Raise KeyError.
Proof.
  apply (fetch_sorted_unique_rows_missing (H := reference_pandas)).
  right. exists "FlipAngle". split; [by right; left|].
  intros Hin%list_elem_of_In. simpl in Hin.
  repeat (destruct Hin as [Hin|Hin]; [discriminate Hin|]). exact Hin.
Defined.

(** X18. The sorted deduplicator does not normalize: when a selected cell
    of a row of the acquisition cannot be hashed (it is, or holds, a list, a
    dict or a set), the call raises [TypeError]. *)
Theorem fetch_sorted_unique_rows_unhashable `{Pandas} (df : DataFrame)
    (acquisition : string) (selected_fields : list string)
    (r : list pyval) (field : string) :
  "ProtocolName" ∈ columns df →
  (∀ f, f ∈ selected_fields → f ∈ columns df) →
  r ∈ records df →
  py_eq (cell (columns df) r "ProtocolName") (PStr acquisition) = true →
  field ∈ selected_fields →
  hashable (cell (columns df) r field) = false →
  fetch_sorted_unique_rows df acquisition selected_fields = Raise TypeError.
Proof.
  intros Hprotocol Hall Hr Hacq Hfield Hcell. unfold fetch_sorted_unique_rows.
  destruct (column_index (columns df) "ProtocolName") as [protocol|] eqn:Hindex.
  2: { apply column_index_None in Hindex. done. }
  simpl. destruct (existsb _ selected_fields) eqn:Hmissing.
  { apply existsb_missing in Hmissing as (f & Hf & Hcol). by destruct (Hcol (Hall f Hf)). }
  assert (Hunhashable :
    forallb (forallb hashable)
      (map (λ r, map (cell (columns df) r) selected_fields)
         (filter (λ r, py_eq (default PNone (r !! protocol)) (PStr acquisition) = true)
            (records df))) = false).
  { apply not_true_is_false. intros Hhashable%forallb_Forall.
    rewrite Forall_forall in Hhashable.
    specialize (Hhashable (map (cell (columns df) r) selected_fields)).
    rewrite forallb_Forall, Forall_forall in Hhashable.
    rewrite Hhashable in Hcell; [done| |].
    - apply (list_elem_of_fmap_2 (λ r, map (cell (columns df) r) selected_fields)).
      apply list_elem_of_filter. split; [|done].
      unfold cell in Hacq. by rewrite Hindex in Hacq.
    - by apply (list_elem_of_fmap_2 (cell (columns df) r)). }
  by rewrite Hunhashable.
Qed.

Lemma fetch_sorted_unique_rows_unhashable_witness :
  fetch_sorted_unique_rows (H := reference_pandas) example_table "T1"
    ["ImageType"; "EchoTime"] = Raise TypeError.
Proof.
  apply (fetch_sorted_unique_rows_unhashable (H := reference_pandas) example_table "T1"
           ["ImageType"; "EchoTime"]
           [PStr "T1"; PList [PStr "ORIGINAL"; PStr "M"]; PInt 7; PInt 1] "ImageType").
  - by left.
  - intros f Hf. apply elem_of_cons in Hf as [->|Hf]; [by right; left|].
    apply list_elem_of_singleton in Hf as ->. by right; right; left.
  - by left.
  - reflexivity.
  - by left.
  - reflexivity.
Defined.

(** ** Splitting loses nothing *)

Lemma split_sep_nonempty (s : string) : split_sep s ≠ [].
Proof.
  induction s as [|c s IH]; [done|]. rewrite split_sep_cons.
  destruct s as [|c' s']; [done|].
  destruct (is_colon c && is_colon c'); [done|].
  by destruct (split_sep (String c' s')).
Qed.

Lemma join_cons (sep p : string) (ps : list string) :
  ps ≠ [] → join sep (p :: ps) = p +:+ sep +:+ join sep ps.
Proof. by destruct ps. Qed.

Lemma join_extend_first (c : ascii) (l : list string) :
  l ≠ [] → join "::" (extend_first c l) = String c (join "::" l).
Proof.
  destruct l as [|p ps]; [done|]. intros _. simpl.
  destruct ps as [|q ps]; [done|]. by rewrite append_cons.
Qed.

(** Joining the pieces of a string gives the string back. *)
Lemma join_split_sep (s : string) : join "::" (split_sep s) = s.
Proof.
  cut (join "::" (split_sep s) = s
       ∧ ∀ c, join "::" (split_sep (String c s)) = String c s); [tauto|].
  induction s as [|c' s [IH1 IH2]].
  - split; [done|]. intros c. done.
  - split; [apply IH2|]. intros c. rewrite split_sep_cons.
    destruct (is_colon c && is_colon c') eqn:Hcc.
    + apply andb_true_iff in Hcc as [Hc Hc'].
      apply Ascii.eqb_eq in Hc as ->. apply Ascii.eqb_eq in Hc' as ->.
      rewrite join_cons by apply split_sep_nonempty. by rewrite IH1.
    + rewrite join_extend_first by apply split_sep_nonempty. by rewrite IH2.
Qed.

Lemma split_sep_inj (s t : string) : split_sep s = split_sep t → s = t.
Proof.
  intros Hst. by rewrite <- (join_split_sep s), <- (join_split_sep t), Hst.
Qed.

(** X19. Parsing a finalized mapping never merges or loses an entry: for a
    mapping with distinct keys, joining the parts of each parsed key and
    value with "::" gives back the mapping, entry by entry. *)
Theorem series_map_lossless (finalized_mapping : list (string * string)) :
  NoDup finalized_mapping.*1 →
  map (λ kv, (join "::" kv.1, join "::" kv.2)) (series_map finalized_mapping)
  = finalized_mapping.
Proof.
  intros Hnd. unfold series_map. rewrite dict_comprehension_NoDup.
  - rewrite map_map. rewrite <- (map_id finalized_mapping) at 2.
    apply map_ext. intros [k v]. simpl. by rewrite !join_split_sep.
  - rewrite !map_map. apply (NoDup_fmap_keys _ fst); [|done].
    intros x y _ _. simpl. apply split_sep_inj.
Qed.

Lemma series_map_lossless_witness :
  map (λ kv, (join "::" kv.1, join "::" kv.2))
      (series_map [ ("a::b::Series 1", "ref::Series 1"); ("a:::", "ref") ])
  = [ ("a::b::Series 1", "ref::Series 1"); ("a:::", "ref") ].
Proof.
  apply (series_map_lossless [ ("a::b::Series 1", "ref::Series 1"); ("a:::", "ref") ]).
  apply NoDup_cons. split; [|apply NoDup_singleton].
  intros Hin%list_elem_of_singleton. discriminate.
Defined.

(** ** Module-reference mode, from the mapping to the compliance check *)

Lemma elem_of_dict_set {K V : Type} `{EqDecision K} (k : K) (v : V)
    (d : list (K * V)) (kv : K * V) :
  kv ∈ dict_set k v d → kv = (k, v) ∨ kv ∈ d.
Proof.
  induction d as [|[k' v'] d IH]; simpl.
  - intros ->%list_elem_of_singleton. by left.
  - destruct (decide (k' = k)).
    + intros [->|?]%elem_of_cons; [by left|right; by right].
    + intros [->|Hin]%elem_of_cons; [right; by left|].
      destruct (IH Hin); [by left|right; by right].
Qed.

Lemma elem_of_dict_comprehension {K V : Type} `{EqDecision K}
    (kvs : list (K * V)) (kv : K * V) :
  kv ∈ dict_comprehension kvs → kv ∈ kvs.
Proof.
  unfold dict_comprehension.
  cut (∀ acc, kv ∈ foldl (λ d kv, dict_set kv.1 kv.2 d) acc kvs → kv ∈ acc ∨ kv ∈ kvs).
  { intros Hgen Hin. destruct (Hgen [] Hin) as [?%elem_of_nil|?]; done. }
  induction kvs as [|[k v] kvs IH]; intros acc; simpl; [by left|].
  intros [Hin|Hin]%IH; [|right; by right].
  apply elem_of_dict_set in Hin as [->|Hin]; [right; by left|by left].
Qed.

Lemma acquisition_map_Some (finalized_mapping : list (string * string)) :
  acquisition_map finalized_mapping
  = Some (dict_comprehension
            (map (λ kv, (hd "" (split_sep kv.1), kv.2)) finalized_mapping)).
Proof.
  unfold acquisition_map.
  assert (Hmap : mapM (λ kv : string * string,
                         (λ a, (a, kv.2)) <$> head (split_sep kv.1)) finalized_mapping
                 = Some (map (λ kv, (hd "" (split_sep kv.1), kv.2)) finalized_mapping)).
  { apply mapM_Some. induction finalized_mapping as [|[k v] m IH]; simpl; constructor.
    - simpl. pose proof (split_sep_nonempty k). by destruct (split_sep k).
    - exact IH. }
  by rewrite Hmap.
Qed.

Lemma hd_extend_first (c : ascii) (l : list string) :
  l ≠ [] → hd "" (extend_first c l) = String c (hd "" l).
Proof. by destruct l. Qed.

(** The first piece of a string that holds the separator ends where the
    separator occurs first: the string is the piece, the separator and a
    rest, and no shorter prefix is followed by the separator. *)
Lemma first_piece_cut (s : string) :
  has_sep s = true →
  ∃ rest, s = hd "" (split_sep s) +:+ "::" +:+ rest
          ∧ ∀ p q, s = p +:+ "::" +:+ q →
              String.length (hd "" (split_sep s)) ≤ String.length p.
Proof.
  induction s as [|c s IH]; [discriminate|].
  rewrite has_sep_cons, split_sep_cons. destruct s as [|c' s']; [discriminate|].
  destruct (is_colon c && is_colon c') eqn:Hcc.
  - intros _. apply andb_true_iff in Hcc as [Hc Hc'].
    apply Ascii.eqb_eq in Hc as ->. apply Ascii.eqb_eq in Hc' as ->.
    exists s'. split; [done|]. intros p q _. apply Nat.le_0_l.
  - cbn [orb]. intros Hsep. destruct (IH Hsep) as (rest & Hs & Hmin).
    rewrite hd_extend_first by apply split_sep_nonempty.
    exists rest. split.
    + rewrite append_cons. f_equal. exact Hs.
    + intros p q Hpq. destruct p as [|c0 p].
      * simpl in Hpq. injection Hpq as -> -> _. discriminate Hcc.
      * rewrite append_cons in Hpq. injection Hpq as _ Hpq.
        cbn [String.length]. apply le_n_S. exact (Hmin p q Hpq).
Qed.

(** X20. The acquisition map of the compliance script is always built (the
    subscript [[0]] never fails), and each of its keys is a key of the
    finalized mapping, whole when it holds no "::" and cut before its first
    "::" otherwise (no shorter prefix of the key is followed by "::"), with
    the value of that key. *)
Theorem acquisition_map_keys (finalized_mapping : list (string * string)) :
  ∃ m, acquisition_map finalized_mapping = Some m
       ∧ ∀ a v, (a, v) ∈ m →
           ∃ k, (k, v) ∈ finalized_mapping
                ∧ ((a = k ∧ has_sep k = false)
                   ∨ ∃ rest, k = a +:+ "::" +:+ rest
                             ∧ ∀ p q, k = p +:+ "::" +:+ q →
                                 String.length a ≤ String.length p).
Proof.
  eexists. split; [apply acquisition_map_Some|].
  intros a v Hin%elem_of_dict_comprehension.
  apply (list_elem_of_fmap_1 _ finalized_mapping) in Hin as ([k v'] & [= -> ->] & Hin).
  exists k. split; [done|]. simpl. destruct (has_sep k) eqn:Hsep.
  - right. by apply first_piece_cut.
  - left. by rewrite (split_sep_no_sep k Hsep).
Qed.

(** X21. What the mapping script returns in module-reference mode goes
    through the compliance script unchanged: when no acquisition name holds
    "::", the acquisition map built from the session map is the session
    map. *)
Theorem module_mapping_to_acquisition_map (acquisition_column ref_models_keys : list string) :
  (∀ a, a ∈ acquisition_column → has_sep a = false) →
  acquisition_map (session_map (module_mapping_output acquisition_column ref_models_keys))
  = Some (session_map (module_mapping_output acquisition_column ref_models_keys)).
Proof.
  intros Hsep. rewrite acquisition_map_Some. f_equal. simpl.
  pose proof (NoDup_zip_keys (unique acquisition_column) (unique ref_models_keys)
                (unique_NoDup acquisition_column)) as Hnd.
  rewrite (dict_comprehension_NoDup (zip _ _) Hnd).
  assert (Hsame : map (λ kv : string * string, (hd "" (split_sep kv.1), kv.2))
                      (zip (unique acquisition_column) (unique ref_models_keys))
                  = zip (unique acquisition_column) (unique ref_models_keys)).
  { rewrite <- (map_id (zip _ _)) at 2. apply map_ext_in.
    intros [a r] Hin%list_elem_of_In. simpl. f_equal.
    apply elem_of_zip_l in Hin. apply (proj1 (elem_of_unique _ _)) in Hin.
    by rewrite (split_sep_no_sep a (Hsep a Hin)). }
  rewrite Hsame. by apply dict_comprehension_NoDup.
Qed.

Lemma module_mapping_to_acquisition_map_witness :
  acquisition_map (session_map (module_mapping_output ["T1"; "T1"; "T2:w"] ["r1"; "r2"]))
  = Some (session_map (module_mapping_output ["T1"; "T1"; "T2:w"] ["r1"; "r2"])).
Proof.
  apply (module_mapping_to_acquisition_map ["T1"; "T1"; "T2:w"] ["r1"; "r2"]).
  intros a Ha. repeat (apply elem_of_cons in Ha as [->|Ha]); try reflexivity.
  by apply elem_of_nil in Ha.
Defined.

(** ** Dict keys in any order *)

Lemma leb_trans (s t u : string) :
  String.leb s t = true → String.leb t u = true → String.leb s u = true.
Proof.
  intros Hst%Is_true_true Htu%Is_true_true. apply Is_true_true.
  by apply (transitivity (R := String.le) Hst).
Qed.

Lemma insert_by_key_sorted (kv : string * res string) (l : list (string * res string)) :
  StronglySorted key_le l → StronglySorted key_le (insert_by_key kv l).
Proof.
  induction 1 as [|kv' l Hsorted IH Hall]; simpl.
  - by repeat constructor.
  - destruct (String.leb kv.1 kv'.1) eqn:Hle.
    + constructor; [by constructor|]. constructor; [done|].
      apply Forall_impl with (1 := Hall). intros z Hz. simpl in *.
      by apply (leb_trans _ kv'.1).
    + constructor; [done|]. rewrite insert_by_key_Permutation.
      constructor; [|done]. simpl.
      destruct (String.leb_total kv.1 kv'.1); congruence.
Qed.

Lemma sort_keys_sorted (items : list (string * res string)) :
  StronglySorted key_le (sort_keys items).
Proof.
  induction items as [|kv items IH]; [constructor|]. by apply insert_by_key_sorted.
Qed.

Lemma sorted_by_key_unique (l1 l2 : list (string * res string)) :
  StronglySorted key_le l1 → StronglySorted key_le l2 →
  l1 ≡ₚ l2 → NoDup l1.*1 → l1 = l2.
Proof.
  intros Hs1. revert l2. induction Hs1 as [|x l1 Hs1 IH Hall1]; intros l2 Hs2 Hperm Hnd.
  - by apply Permutation_nil_l in Hperm.
  - destruct Hs2 as [|y l2 Hs2 Hall2].
    { by apply Permutation_nil_r in Hperm. }
    rewrite fmap_cons in Hnd. apply NoDup_cons in Hnd as [Hx Hnd].
    rewrite Forall_forall in Hall1, Hall2.
    assert (Hyx : y = x).
    { assert (Hy : y ∈ x :: l1) by (rewrite Hperm; by left).
      apply elem_of_cons in Hy as [Hy|Hy]; [done|]. exfalso.
      assert (Hx' : x ∈ y :: l2) by (rewrite <- Hperm; by left).
      apply elem_of_cons in Hx' as [Hx'|Hx']; [by subst; apply Hx, list_elem_of_fmap_2|].
      apply Hx. rewrite (String.leb_antisym x.1 y.1 (Hall1 y Hy) (Hall2 x Hx')).
      by apply list_elem_of_fmap_2. }
    subst y. f_equal. apply IH; [done| |done].
    by apply (Permutation_cons_inv (a := x)).
Qed.

(** X22. The insertion order of a dict does not show in its normalized
    value: two dicts with the same items and distinct keys normalize alike. *)
Theorem make_hashable_key_order `{FloatRepr} (items items' : list (string * pyval)) :
  NoDup items.*1 → items ≡ₚ items' →
  make_hashable (PDict items) = make_hashable (PDict items').
Proof.
  intros Hnd Hperm.
  rewrite !make_hashable_encoded by eauto. rewrite !json_dumps_object.
  rewrite (sorted_by_key_unique
             (sort_keys (map (λ kv : string * pyval, (kv.1, json_dumps kv.2)) items))
             (sort_keys (map (λ kv : string * pyval, (kv.1, json_dumps kv.2)) items')));
    [done|apply sort_keys_sorted..| |].
  - rewrite !sort_keys_Permutation. by apply Permutation_map.
  - rewrite sort_keys_Permutation.
    change (NoDup (fst <$> ((λ kv : string * pyval, (kv.1, json_dumps kv.2)) <$> items))).
    by rewrite <- list_fmap_compose.
Qed.

Lemma make_hashable_key_order_witness :
  make_hashable (H := no_float_repr) (PDict [("b", PInt 2); ("a", PList [PNone])])
  = make_hashable (H := no_float_repr) (PDict [("a", PList [PNone]); ("b", PInt 2)]).
Proof.
  apply (make_hashable_key_order (H := no_float_repr)).
  - apply NoDup_cons. split; [|apply NoDup_singleton].
    intros Hin%list_elem_of_singleton. discriminate.
  - apply Permutation_swap.
Defined.

(** ** Series labels and groups; one reference per acquisition *)

(** X23. In a session of two or more acquisitions, two rows of one
    acquisition carry the same series label exactly when their reference
    keys fall into the same group. *)
Theorem series_label_same_group `{ColumnRepr} {K : Type}
    (key_compare : K → K → comparison)
    (session : list (session_row (K := K))) (i j : nat) (ri rj : session_row) (a : string) :
  (∀ x y, key_compare y x = CompOpp (key_compare x y)) →
  (∀ x y z, key_compare x y = Lt → key_compare y z = Lt → key_compare x z = Lt) →
  (∀ x y z, key_compare x y = Eq → key_compare x z = key_compare y z) →
  2 ≤ length (acquisitions session) →
  session !! i = Some ri → session !! j = Some rj →
  ProtocolName ri = Some a → ProtocolName rj = Some a →
  assign_series key_compare session !! i = assign_series key_compare session !! j
  ↔ key_compare (reference_key ri) (reference_key rj) = Eq.
Proof.
  intros Hantisym Htrans Heq Hseveral Hi Hj Hai Haj.
  rewrite (assign_series_lookup _ _ _ _ Hi), (assign_series_lookup _ _ _ _ Hj).
  rewrite (series_ordinal_Some _ _ _ _ _ Hi Hai), (series_ordinal_Some _ _ _ _ _ Hj Haj).
  destruct (acquisitions session) as [|a1 [|a2 names]]; simpl in Hseveral; [lia..|].
  rewrite <- (key_index_compare key_compare Hantisym Htrans Heq
                (group_row_keys session a) (reference_key ri) (reference_key rj)).
  - rewrite Nat.compare_eq_iff. split.
    + intros [= Hlabel]. apply (inj (String.app "")) in Hlabel.
      apply (inj pretty) in Hlabel. by injection Hlabel.
    + by intros ->.
  - apply elem_of_group_row_keys. by exists i, ri.
  - apply elem_of_group_row_keys. by exists j, rj.
Qed.

Lemma series_label_same_group_witness :
  assign_series (H := no_column_repr) Z.compare unsorted_session !! 0
    = assign_series (H := no_column_repr) Z.compare unsorted_session !! 2
  ↔ (2 ?= 2)%Z = Eq.
Proof.
  apply (series_label_same_group (H := no_column_repr) Z.compare unsorted_session 0 2
           {| ProtocolName := Some "a"; reference_key := 2%Z |}
           {| ProtocolName := Some "a"; reference_key := 2%Z |} "a");
    try reflexivity.
  - intros x y. apply Z.compare_antisym.
  - intros x y z. rewrite !Z.compare_lt_iff. lia.
  - intros x y z Hxy. apply Z.compare_eq in Hxy. by rewrite Hxy.
Defined.

Lemma NoDup_zip_values {K V : Type} (ks : list K) (vs : list V) :
  NoDup vs → NoDup (zip ks vs).*2.
Proof.
  revert vs. induction ks as [|k ks IH]; intros vs Hnd; [constructor|].
  destruct vs as [|v vs]; [constructor|]. apply NoDup_cons in Hnd as [Hv Hnd].
  simpl. apply NoDup_cons. split; [|by apply IH].
  intros ([k' v'] & -> & Hin%elem_of_zip_r)%list_elem_of_fmap. by apply Hv.
Qed.

(** X24. In module-reference mode the session map is one-to-one: no input
    acquisition appears twice among its keys, and no reference acquisition
    is given to two input acquisitions. *)
Theorem module_mapping_injective (acquisition_column ref_models_keys : list string) :
  NoDup (session_map (module_mapping_output acquisition_column ref_models_keys)).*1
  ∧ NoDup (session_map (module_mapping_output acquisition_column ref_models_keys)).*2.
Proof.
  simpl.
  rewrite (dict_comprehension_NoDup (zip _ _)
             (NoDup_zip_keys _ _ (unique_NoDup acquisition_column))).
  split; [apply NoDup_zip_keys|apply NoDup_zip_values]; apply unique_NoDup.
Qed.

(** ** From the deduplicator to the analyzer *)

Lemma foldl_insert_lookup_Some (cvs : list (string * pyval)) (d : gmap string pyval)
    (c : string) (w : pyval) :
  foldl (λ d cv, <[cv.1 := cv.2]> d) d cvs !! c = Some w →
  d !! c = Some w ∨ (c, w) ∈ cvs.
Proof.
  revert d. induction cvs as [|[c' w'] cvs IH]; intros d; simpl; [by left|].
  intros [Hd|Hin]%IH; [|right; by right].
  destruct (decide (c' = c)) as [->|Hne].
  - rewrite lookup_insert_eq in Hd. injection Hd as ->. right. by left.
  - rewrite lookup_insert_ne in Hd by done. by left.
Qed.

(** X25. The analyzer accepts what the deduplicator returns: on the records
    of a returning call, [get_constant_fields] returns for every field
    list. *)
Theorem fetched_rows_analyzable `{FloatRepr} `{Pandas} (df : DataFrame)
    (acquisition : string) (selected_fields : list string)
    (out : list (gmap string pyval)) (fields : list string) :
  pandas_contract →
  NoDup selected_fields →
  fetch_unique_rows df acquisition selected_fields = Ok out →
  ∃ cf vf, get_constant_fields out fields = Ok (cf, vf).
Proof.
  intros Hcontract Hnd Hfetch. apply get_constant_fields_returns.
  intros rec f Hrec _.
  destruct (decide (selected_fields = [])) as [->|Hsel].
  { injection Hfetch as <-. by apply elem_of_nil in Hrec. }
  destruct (fetch_unique_rows_rows Hcontract _ _ _ _ Hsel Hfetch)
    as (protocol & normalized & sorted & _ & Hnorm & Hfrom & _ & Hstrip & ->).
  apply list_elem_of_fmap in Hrec as (r' & -> & Hr').
  rewrite Hstrip in * by (intros ->; by apply elem_of_nil in Hr').
  assert (Hin : r' ∈ normalized) by by apply Hfrom.
  unfold dict_get. destruct (to_record selected_fields r' !! f) as [w|] eqn:Hw; [|done].
  simpl. apply foldl_insert_lookup_Some in Hw as [Hw|Hw]; [by rewrite lookup_empty in Hw|].
  apply elem_of_zip_r, list_elem_of_lookup_1 in Hw as [j Hj].
  apply (normalize_columns_spec _ []) in Hnorm; [|done..].
  apply list_elem_of_lookup_1 in Hin as [i Hi].
  destruct (Forall2_lookup_r _ _ _ _ _ Hnorm Hi) as (r0 & Hr0 & Hlen & Hcells).
  destruct (Hcells j) as [_ Hcell].
  assert (Hlt : j < length r0) by (rewrite <- Hlen; by apply lookup_lt_Some in Hj).
  destruct (lookup_lt_is_Some_2 r0 j Hlt) as [v Hv].
  apply list_elem_of_lookup_2, list_elem_of_fmap in Hr0 as (r & -> & _).
  rewrite length_map in Hlt.
  destruct (Hcell ltac:(simpl; lia) v Hv) as (w' & Hw' & Hj').
  rewrite Hj in Hj'. injection Hj' as <-.
  apply make_hashable_returns. exists w. by apply (make_hashable_fixed v).
Qed.

Lemma fetched_rows_analyzable_witness :
  ∃ out,
    fetch_unique_rows (H := no_float_repr) (H0 := reference_pandas)
      example_table "T1" ["ImageType"; "EchoTime"] = Ok out
    ∧ ∃ cf vf,
        get_constant_fields (H := no_float_repr) out ["ImageType"; "EchoTime"; "TI"]
        = Ok (cf, vf).
Proof.
  destruct (fetch_unique_rows (H := no_float_repr) (H0 := reference_pandas)
              example_table "T1" ["ImageType"; "EchoTime"]) as [out|e] eqn:Hfetch.
  - exists out. split; [reflexivity|].
    apply (fetched_rows_analyzable (H := no_float_repr) (H0 := reference_pandas)
             example_table "T1" ["ImageType"; "EchoTime"] out); [| |exact Hfetch].
    + split; [intros subset rows; apply keep_first_sublist|apply sort_rows_Permutation].
    + apply NoDup_cons. split; [|apply NoDup_singleton].
      intros Hin%list_elem_of_singleton. discriminate.
  - assert (Hok : is_Ok (fetch_unique_rows (H := no_float_repr) (H0 := reference_pandas)
                           example_table "T1" ["ImageType"; "EchoTime"]) = true)
      by (vm_compute; reflexivity).
    rewrite Hfetch in Hok. discriminate.
Defined.
